(** * GFileEnumerator: the enumerator session protocol of gio/gfileenumerator.c

    A shallow embedding of the enumerator state machine (the [closed] and
    [pending] bits, the outstanding error), of its synchronous operations, of
    the default thread-offloaded batch retrieval and close, and of the
    GSimpleAsyncResult objects through which asynchronous operations complete.

    The C code mutates one enumerator object, calls into its subclass through
    the class vtable, and hands work to a scheduler.  Here all of that is one
    explicit [World] value that every function takes and returns. *)

From Stdlib Require Import String List Bool Arith ZArith Lia.
Import ListNotations.

(* ================================================================= *)
(** ** Errors *)

(** Error domains.  Only [G_IO_ERROR] is named by the source. *)
Inductive GQuark : Type :=
| G_IO_ERROR
| G_OTHER_DOMAIN (q : nat).

(** Error codes.  The three codes the source names, [G_IO_ERROR_FAILED] as a
    generic backend failure, and any other code.  The numeric values live in
    gioenums.h and play no role in this file. *)
Inductive GIOErrorEnum : Type :=
| G_IO_ERROR_FAILED
| G_IO_ERROR_CLOSED
| G_IO_ERROR_CANCELLED
| G_IO_ERROR_PENDING
| G_IO_ERROR_OTHER (n : nat).

Record GError : Type := {
  domain : GQuark;
  code : GIOErrorEnum;
  message : string
}.

(** [g_set_error (error, domain, code, message)] builds a fresh error. *)
Definition g_set_error (d : GQuark) (c : GIOErrorEnum) (msg : string) : GError :=
  {| domain := d; code := c; message := msg |}.

(** The test of next_files_thread:
    [error->domain == G_IO_ERROR && error->code == G_IO_ERROR_CANCELLED]. *)
Definition is_cancelled_error (e : GError) : bool :=
  match domain e, code e with
  | G_IO_ERROR, G_IO_ERROR_CANCELLED => true
  | _, _ => false
  end.

(* ================================================================= *)
(** ** Entries, cancellation tokens, callbacks *)

(** An entry is opaque to the enumerator. *)
Inductive GFileInfo : Type :=
| FileInfo (id : nat).

(** A cancellation token can be cancelled from another thread at any moment, so
    a token is what each poll of it observes: [cancelled_at t i] is the answer
    to the [i]-th poll made during one operation. *)
Record GCancellable : Type := {
  cancelled_at : nat -> bool
}.

(** Modelled from the spec: [g_cancellable_set_error_if_cancelled] (gcancellable.c
    is not part of the sources).  "Before each call, check cancellable; if
    canceled, treat as an entry-retrieval failure with a cancellation error for
    that iteration."  A NULL token is never cancelled. *)
Definition g_cancellable_set_error_if_cancelled
    (cancellable : option GCancellable) (poll : nat) : option GError :=
  match cancellable with
  | Some t =>
      if cancelled_at t poll
      then Some (g_set_error G_IO_ERROR G_IO_ERROR_CANCELLED "Operation was cancelled")
      else None
  | None => None
  end.

(** A caller-supplied [GAsyncReadyCallback] is identified by a number; NULL is
    [None].  The two static wrappers of the source are callbacks as well. *)
Definition UserCallback : Type := nat.

Inductive GAsyncReadyCallback : Type :=
| user_callback (f : UserCallback)
| next_async_callback_wrapper_fn
| close_async_callback_wrapper_fn.

(** [gpointer user_data]. *)
Definition gpointer : Type := nat.

(* ================================================================= *)
(** ** GSimpleAsyncResult *)

(** Source tags: the address of the function that created the result. *)
Inductive SourceTag : Type :=
| tag_g_file_enumerator_next_files_async
| tag_g_file_enumerator_real_next_files_async
| tag_g_file_enumerator_real_close_async.

Definition SourceTag_eqb (a b : SourceTag) : bool :=
  match a, b with
  | tag_g_file_enumerator_next_files_async, tag_g_file_enumerator_next_files_async => true
  | tag_g_file_enumerator_real_next_files_async, tag_g_file_enumerator_real_next_files_async => true
  | tag_g_file_enumerator_real_close_async, tag_g_file_enumerator_real_close_async => true
  | _, _ => false
  end.

(** [typedef struct { int num_files; GList *files; } NextAsyncOp;] *)
Record NextAsyncOp : Type := {
  num_files : Z;
  files : list GFileInfo
}.

(** Modelled from the spec: the AsyncOperation ([GSimpleAsyncResult], whose
    implementation gsimpleasyncresult.c is not part of the sources):
    "{tag, payload, error: optional<Error>}", together with the callback and
    user data it completes with and the handle-cancellation flag that
    g_file_enumerator_real_close_async clears. *)
Record GSimpleAsyncResult : Type := {
  callback : option GAsyncReadyCallback;
  user_data : gpointer;
  source_tag : option SourceTag;
  op_res : option NextAsyncOp;
  error : option GError;
  handle_cancellation : bool
}.

Definition g_simple_async_result_new
    (cb : option GAsyncReadyCallback) (ud : gpointer) (tag : option SourceTag)
    : GSimpleAsyncResult :=
  {| callback := cb; user_data := ud; source_tag := tag;
     op_res := None; error := None; handle_cancellation := true |}.

Definition g_simple_async_result_set_op_res_gpointer
    (res : GSimpleAsyncResult) (op : NextAsyncOp) : GSimpleAsyncResult :=
  {| callback := callback res; user_data := user_data res;
     source_tag := source_tag res; op_res := Some op;
     error := error res; handle_cancellation := handle_cancellation res |}.

Definition g_simple_async_result_set_from_error
    (res : GSimpleAsyncResult) (e : GError) : GSimpleAsyncResult :=
  {| callback := callback res; user_data := user_data res;
     source_tag := source_tag res; op_res := op_res res;
     error := Some e; handle_cancellation := handle_cancellation res |}.

Definition g_simple_async_result_set_handle_cancellation
    (res : GSimpleAsyncResult) (b : bool) : GSimpleAsyncResult :=
  {| callback := callback res; user_data := user_data res;
     source_tag := source_tag res; op_res := op_res res;
     error := error res; handle_cancellation := b |}.

(** The job functions handed to [g_simple_async_result_run_in_thread]. *)
Inductive GSimpleAsyncThreadFunc : Type :=
| next_files_thread_fn
| close_async_thread_fn.

Record ThreadJob : Type := {
  job_res : GSimpleAsyncResult;
  job_func : GSimpleAsyncThreadFunc;
  job_priority : Z;
  job_cancellable : option GCancellable
}.

(** One delivery of a completion to a caller-supplied callback:
    a call of the callback on (source_object, res, user_data). *)
Record CallbackInvocation : Type := {
  cb_fn : UserCallback;
  cb_res : GSimpleAsyncResult;
  cb_user_data : gpointer
}.

(* ================================================================= *)
(** ** The enumerator and its class *)

(** [struct _GFileEnumeratorPrivate]. *)
Record GFileEnumeratorPrivate : Type := {
  closed : bool;
  pending : bool;
  outstanding_callback : option UserCallback;
  outstanding_error : option GError
}.

(** What the virtual [next_file] hands back: a GFileInfo, NULL without an error
    (end of the enumerator), or NULL with [*error] set. *)
Inductive NextFileResult : Type :=
| Info (info : GFileInfo)
| EndOfEnumerator
| NextError (e : GError).

(** What the virtual [close] hands back: TRUE, or FALSE with [*error] set. *)
Inductive CloseResult : Type :=
| CloseOk
| CloseError (e : GError).

(** The two primitives a subclass supplies through [GFileEnumeratorClass];
    [B] is the subclass's instance data.  The asynchronous slots of the vtable
    are the defaults that g_file_enumerator_class_init installs. *)
Class GFileEnumeratorClass (B : Type) : Type := {
  next_file : B -> option GCancellable -> NextFileResult * B;
  close : B -> option GCancellable -> CloseResult * B
}.

(** Calls made through the vtable, each with what it handed back; the log of
    a session lists them oldest first. *)
Inductive VCall : Type :=
| VNextFile (r : NextFileResult)
| VClose (r : CloseResult).

Section Enumerator.

Context {B : Type} `{GFileEnumeratorClass B}.

(** Everything an operation can read or write: the private struct, the
    subclass instance, the log of virtual calls, the stack of current
    cancellables, the jobs handed to the worker scheduler, the completions
    waiting in the idle queue, and the callbacks already invoked (most recent
    last). *)
Record World : Type := {
  priv : GFileEnumeratorPrivate;
  instance : B;
  vcalls : list VCall;
  current_cancellable : list GCancellable;
  thread_jobs : list ThreadJob;
  idle_queue : list GSimpleAsyncResult;
  invoked : list CallbackInvocation
}.

Definition with_priv (w : World) (p : GFileEnumeratorPrivate) : World :=
  {| priv := p; instance := instance w; vcalls := vcalls w;
     current_cancellable := current_cancellable w;
     thread_jobs := thread_jobs w; idle_queue := idle_queue w;
     invoked := invoked w |}.

Definition priv_set_pending (p : GFileEnumeratorPrivate) (b : bool) :=
  {| closed := closed p; pending := b;
     outstanding_callback := outstanding_callback p;
     outstanding_error := outstanding_error p |}.

Definition priv_set_closed (p : GFileEnumeratorPrivate) (b : bool) :=
  {| closed := b; pending := pending p;
     outstanding_callback := outstanding_callback p;
     outstanding_error := outstanding_error p |}.

Definition priv_set_outstanding_callback
    (p : GFileEnumeratorPrivate) (cb : option UserCallback) :=
  {| closed := closed p; pending := pending p;
     outstanding_callback := cb;
     outstanding_error := outstanding_error p |}.

Definition priv_set_outstanding_error
    (p : GFileEnumeratorPrivate) (e : option GError) :=
  {| closed := closed p; pending := pending p;
     outstanding_callback := outstanding_callback p;
     outstanding_error := e |}.

(** The virtual call [class->next_file (enumerator, cancellable, error)]. *)
Definition class_next_file (w : World) (cancellable : option GCancellable)
    : NextFileResult * World :=
  let '(r, b) := next_file (instance w) cancellable in
  (r, {| priv := priv w; instance := b; vcalls := vcalls w ++ [VNextFile r];
         current_cancellable := current_cancellable w;
         thread_jobs := thread_jobs w; idle_queue := idle_queue w;
         invoked := invoked w |}).

(** The virtual call [class->close (enumerator, cancellable, error)]. *)
Definition class_close (w : World) (cancellable : option GCancellable)
    : CloseResult * World :=
  let '(r, b) := close (instance w) cancellable in
  (r, {| priv := priv w; instance := b; vcalls := vcalls w ++ [VClose r];
         current_cancellable := current_cancellable w;
         thread_jobs := thread_jobs w; idle_queue := idle_queue w;
         invoked := invoked w |}).

(** [if (cancellable) g_push_current_cancellable (cancellable);]
    Modelled from the spec: the ambient association of a token with the
    calling context (gioscheduler.c is not part of the sources): "associate
    before, dissociate after". *)
Definition g_push_current_cancellable (w : World) (cancellable : option GCancellable)
    : World :=
  match cancellable with
  | Some t =>
      {| priv := priv w; instance := instance w; vcalls := vcalls w;
         current_cancellable := t :: current_cancellable w;
         thread_jobs := thread_jobs w; idle_queue := idle_queue w;
         invoked := invoked w |}
  | None => w
  end.

(** [if (cancellable) g_pop_current_cancellable (cancellable);] *)
Definition g_pop_current_cancellable (w : World) (cancellable : option GCancellable)
    : World :=
  match cancellable with
  | Some _ =>
      {| priv := priv w; instance := instance w; vcalls := vcalls w;
         current_cancellable := tl (current_cancellable w);
         thread_jobs := thread_jobs w; idle_queue := idle_queue w;
         invoked := invoked w |}
  | None => w
  end.

(** Modelled from the spec: [g_simple_async_result_complete_in_idle]
    (gsimpleasyncresult.c is not part of the sources): the completion is
    "delivered asynchronously relative to the call - never invoked before the
    initiating call returns"; it waits in the idle queue. *)
Definition g_simple_async_result_complete_in_idle
    (w : World) (res : GSimpleAsyncResult) : World :=
  {| priv := priv w; instance := instance w; vcalls := vcalls w;
     current_cancellable := current_cancellable w;
     thread_jobs := thread_jobs w; idle_queue := idle_queue w ++ [res];
     invoked := invoked w |}.

(** Modelled from the spec: [g_simple_async_report_error_in_idle]
    (gsimpleasyncresult.c is not part of the sources): "schedule completion
    with" the given error.  The result it builds has no source tag. *)
Definition g_simple_async_report_error_in_idle
    (w : World) (cb : option GAsyncReadyCallback) (ud : gpointer)
    (d : GQuark) (c : GIOErrorEnum) (msg : string) : World :=
  g_simple_async_result_complete_in_idle w
    (g_simple_async_result_set_from_error
       (g_simple_async_result_new cb ud None) (g_set_error d c msg)).

(** Modelled from the spec: [g_simple_async_result_run_in_thread]
    (gsimpleasyncresult.c and gioscheduler.c are not part of the sources):
    "Submit(priority, job, cancellable); job runs off the calling thread". *)
Definition g_simple_async_result_run_in_thread
    (w : World) (res : GSimpleAsyncResult) (func : GSimpleAsyncThreadFunc)
    (io_priority : Z) (cancellable : option GCancellable) : World :=
  {| priv := priv w; instance := instance w; vcalls := vcalls w;
     current_cancellable := current_cancellable w;
     thread_jobs := thread_jobs w ++
       [{| job_res := res; job_func := func; job_priority := io_priority;
           job_cancellable := cancellable |}];
     idle_queue := idle_queue w;
     invoked := invoked w |}.

(* ----------------------------------------------------------------- *)
(** *** Synchronous operations *)

(** The value a [GFileInfo *] return and its [GError **] carry. *)
Definition next_file_return (r : NextFileResult) : option GFileInfo * option GError :=
  match r with
  | Info f => (Some f, None)
  | EndOfEnumerator => (None, None)
  | NextError e => (None, Some e)
  end.

Definition g_file_enumerator_next_file
    (w : World) (cancellable : option GCancellable)
    : (option GFileInfo * option GError) * World :=
  if closed (priv w) then
    ((None, Some (g_set_error G_IO_ERROR G_IO_ERROR_CLOSED "Enumerator is closed")), w)
  else if pending (priv w) then
    ((None, Some (g_set_error G_IO_ERROR G_IO_ERROR_PENDING
                    "File enumerator has outstanding operation")), w)
  else
    match outstanding_error (priv w) with
    | Some e =>
        ((None, Some e), with_priv w (priv_set_outstanding_error (priv w) None))
    | None =>
        let w1 := g_push_current_cancellable w cancellable in
        let w2 := with_priv w1 (priv_set_pending (priv w1) true) in
        let '(info, w3) := class_next_file w2 cancellable in
        let w4 := with_priv w3 (priv_set_pending (priv w3) false) in
        let w5 := g_pop_current_cancellable w4 cancellable in
        (next_file_return info, w5)
    end.

(** The error a virtual [close] leaves in the caller's [GError **]. *)
Definition close_error (r : CloseResult) : option GError :=
  match r with
  | CloseOk => None
  | CloseError e => Some e
  end.

(** The [gboolean] a virtual [close] returns. *)
Definition close_result (r : CloseResult) : bool :=
  match r with
  | CloseOk => true
  | CloseError _ => false
  end.

(** The value of the virtual call is dropped; the function ends in
    [return TRUE]. *)
Definition g_file_enumerator_close
    (w : World) (cancellable : option GCancellable)
    : (bool * option GError) * World :=
  if closed (priv w) then ((true, None), w)
  else if pending (priv w) then
    ((false, Some (g_set_error G_IO_ERROR G_IO_ERROR_PENDING
                     "File enumerator has outstanding operation")), w)
  else
    let w1 := g_push_current_cancellable w cancellable in
    let w2 := with_priv w1 (priv_set_pending (priv w1) true) in
    let '(r, w3) := class_close w2 cancellable in
    let w4 := with_priv w3 (priv_set_pending (priv w3) false) in
    let w5 := with_priv w4 (priv_set_closed (priv w4) true) in
    let w6 := g_pop_current_cancellable w5 cancellable in
    ((true, close_error r), w6).

Definition g_file_enumerator_finalize (w : World) : World :=
  if closed (priv w) then w else snd (g_file_enumerator_close w None).

Definition g_file_enumerator_is_closed (w : World) : bool := closed (priv w).

Definition g_file_enumerator_has_pending (w : World) : bool := pending (priv w).

Definition g_file_enumerator_set_pending (w : World) (b : bool) : World :=
  with_priv w (priv_set_pending (priv w) b).

(* ----------------------------------------------------------------- *)
(** *** The default batch worker *)

(** Lines 509-512: poll the token, and only when it is not cancelled call the
    subclass.  [i] is the loop index, which is also the number of the poll. *)
Definition fetch_info (w : World) (cancellable : option GCancellable) (i : nat)
    : NextFileResult * World :=
  match g_cancellable_set_error_if_cancelled cancellable i with
  | Some e => (NextError e, w)
  | None => class_next_file w cancellable
  end.

(** [op->files = g_list_prepend (op->files, info);] *)
Definition op_prepend (op : NextAsyncOp) (info : GFileInfo) : NextAsyncOp :=
  {| num_files := num_files op; files := info :: files op |}.

(** The [for] loop of next_files_thread with [todo] iterations left and loop
    index [i].  The third component of the result is the local variable
    [error] as it stands when the loop is left. *)
Fixpoint next_files_loop (todo : nat) (i : nat) (cancellable : option GCancellable)
    (w : World) (op : NextAsyncOp) : World * NextAsyncOp * option GError :=
  match todo with
  | O => (w, op, None)
  | S todo' =>
      let '(info, w1) := fetch_info w cancellable i in
      match info with
      | Info f => next_files_loop todo' (S i) cancellable w1 (op_prepend op f)
      | EndOfEnumerator => (w1, op, None)
      | NextError e =>
          if 0 <? i then
            if is_cancelled_error e
            then (w1, op, None)
            else (with_priv w1 (priv_set_outstanding_error (priv w1) (Some e)),
                  op, None)
          else (w1, op, Some e)
      end
  end.

(** next_files_thread.  The function ends right after the loop: whatever the
    local [error] holds then is not looked at again, and nothing is written to
    [res] but the files of its op.  A result without an op is a NULL
    dereference ([None]). *)
Definition next_files_thread
    (w : World) (res : GSimpleAsyncResult) (cancellable : option GCancellable)
    : option (World * GSimpleAsyncResult) :=
  match op_res res with
  | Some op =>
      let '(w', op', _) :=
        next_files_loop (Z.to_nat (num_files op)) 0 cancellable w op in
      Some (w', g_simple_async_result_set_op_res_gpointer res op')
  | None => None
  end.

(** The result object g_file_enumerator_real_next_files_async builds: a zeroed
    op with [num_files] set, attached to a new result tagged with the function
    itself. *)
Definition next_async_result
    (n : Z) (cb : option GAsyncReadyCallback) (ud : gpointer) : GSimpleAsyncResult :=
  let op := {| num_files := n; files := [] |} in
  let res := g_simple_async_result_new cb ud
               (Some tag_g_file_enumerator_real_next_files_async) in
  g_simple_async_result_set_op_res_gpointer res op.

Definition g_file_enumerator_real_next_files_async
    (w : World) (n : Z) (io_priority : Z) (cancellable : option GCancellable)
    (cb : option GAsyncReadyCallback) (ud : gpointer) : World :=
  g_simple_async_result_run_in_thread w (next_async_result n cb ud)
    next_files_thread_fn io_priority cancellable.

(** [g_assert] on the tag, then [return op->files].  [None] is the abort. *)
Definition g_file_enumerator_real_next_files_finish (res : GSimpleAsyncResult)
    : option (list GFileInfo) :=
  match source_tag res with
  | Some tag_g_file_enumerator_real_next_files_async =>
      match op_res res with
      | Some op => Some (files op)
      | None => None
      end
  | _ => None
  end.

(* ----------------------------------------------------------------- *)
(** *** Asynchronous batch retrieval *)

Definition g_file_enumerator_next_files_async
    (w : World) (n : Z) (io_priority : Z) (cancellable : option GCancellable)
    (cb : option UserCallback) (ud : gpointer) : World :=
  if (n <? 0)%Z then w                      (* g_return_if_fail (num_files >= 0) *)
  else if (n =? 0)%Z then
    g_simple_async_result_complete_in_idle w
      (g_simple_async_result_new (option_map user_callback cb) ud
         (Some tag_g_file_enumerator_next_files_async))
  else if closed (priv w) then
    g_simple_async_report_error_in_idle w (option_map user_callback cb) ud
      G_IO_ERROR G_IO_ERROR_CLOSED "File enumerator is already closed"
  else if pending (priv w) then
    g_simple_async_report_error_in_idle w (option_map user_callback cb) ud
      G_IO_ERROR G_IO_ERROR_PENDING "File enumerator has outstanding operation"
  else
    let w1 := with_priv w (priv_set_pending (priv w) true) in
    let w2 := with_priv w1 (priv_set_outstanding_callback (priv w1) cb) in
    g_file_enumerator_real_next_files_async w2 n io_priority cancellable
      (Some next_async_callback_wrapper_fn) ud.

(** What a finish call hands back: the list and the caller's [GError **];
    [None] is the abort of a failed [g_assert]. *)
Definition g_file_enumerator_next_files_finish (res : GSimpleAsyncResult)
    : option (list GFileInfo * option GError) :=
  match error res with
  | Some e => Some ([], Some e)       (* g_simple_async_result_propagate_error *)
  | None =>
      match source_tag res with
      | Some tag_g_file_enumerator_next_files_async => Some ([], None)
      | _ =>
          option_map (fun l => (l, None))
            (g_file_enumerator_real_next_files_finish res)
      end
  end.

(** Invoking the caller's callback, when there is one. *)
Definition invoke_callback (w : World) (cb : option UserCallback)
    (res : GSimpleAsyncResult) (ud : gpointer) : World :=
  match cb with
  | Some f =>
      {| priv := priv w; instance := instance w; vcalls := vcalls w;
         current_cancellable := current_cancellable w;
         thread_jobs := thread_jobs w; idle_queue := idle_queue w;
         invoked := invoked w ++ [{| cb_fn := f; cb_res := res; cb_user_data := ud |}] |}
  | None => w
  end.

Definition next_async_callback_wrapper
    (w : World) (res : GSimpleAsyncResult) (ud : gpointer) : World :=
  let w1 := with_priv w (priv_set_pending (priv w) false) in
  invoke_callback w1 (outstanding_callback (priv w1)) res ud.

(* ----------------------------------------------------------------- *)
(** *** Asynchronous close *)

Definition close_async_callback_wrapper
    (w : World) (res : GSimpleAsyncResult) (ud : gpointer) : World :=
  let w1 := with_priv w (priv_set_pending (priv w) false) in
  let w2 := with_priv w1 (priv_set_closed (priv w1) true) in
  invoke_callback w2 (outstanding_callback (priv w2)) res ud.

Definition close_async_thread
    (w : World) (res : GSimpleAsyncResult) (cancellable : option GCancellable)
    : World * GSimpleAsyncResult :=
  let '(r, w1) := class_close w cancellable in
  match r with
  | CloseOk => (w1, res)
  | CloseError e => (w1, g_simple_async_result_set_from_error res e)
  end.

(** The result object g_file_enumerator_real_close_async builds. *)
Definition close_async_result
    (cb : option GAsyncReadyCallback) (ud : gpointer) : GSimpleAsyncResult :=
  let res := g_simple_async_result_new cb ud
               (Some tag_g_file_enumerator_real_close_async) in
  g_simple_async_result_set_handle_cancellation res false.

Definition g_file_enumerator_real_close_async
    (w : World) (io_priority : Z) (cancellable : option GCancellable)
    (cb : option GAsyncReadyCallback) (ud : gpointer) : World :=
  g_simple_async_result_run_in_thread w (close_async_result cb ud)
    close_async_thread_fn io_priority cancellable.

Definition g_file_enumerator_close_async
    (w : World) (io_priority : Z) (cancellable : option GCancellable)
    (cb : option UserCallback) (ud : gpointer) : World :=
  if closed (priv w) then
    g_simple_async_report_error_in_idle w (option_map user_callback cb) ud
      G_IO_ERROR G_IO_ERROR_CLOSED "File enumerator is already closed"
  else if pending (priv w) then
    g_simple_async_report_error_in_idle w (option_map user_callback cb) ud
      G_IO_ERROR G_IO_ERROR_PENDING "File enumerator has outstanding operation"
  else
    let w1 := with_priv w (priv_set_pending (priv w) true) in
    let w2 := with_priv w1 (priv_set_outstanding_callback (priv w1) cb) in
    g_file_enumerator_real_close_async w2 io_priority cancellable
      (Some close_async_callback_wrapper_fn) ud.

(** [g_assert] on the tag, then [return TRUE]. *)
Definition g_file_enumerator_real_close_finish (res : GSimpleAsyncResult)
    : option bool :=
  match source_tag res with
  | Some tag_g_file_enumerator_real_close_async => Some true
  | _ => None
  end.

Definition g_file_enumerator_close_finish (res : GSimpleAsyncResult)
    : option (bool * option GError) :=
  match error res with
  | Some e => Some (false, Some e)
  | None =>
      option_map (fun b => (b, None)) (g_file_enumerator_real_close_finish res)
  end.

(* ----------------------------------------------------------------- *)
(** *** The scheduler and the idle queue *)

(** Modelled from the spec: [g_simple_async_result_complete]
    (gsimpleasyncresult.c is not part of the sources): the completion callback
    stored in the operation is invoked, once, with the operation and its user
    data; an operation without a callback completes silently. *)
Definition g_simple_async_result_complete (w : World) (res : GSimpleAsyncResult)
    : World :=
  match callback res with
  | Some (user_callback f) => invoke_callback w (Some f) res (user_data res)
  | Some next_async_callback_wrapper_fn =>
      next_async_callback_wrapper w res (user_data res)
  | Some close_async_callback_wrapper_fn =>
      close_async_callback_wrapper w res (user_data res)
  | None => w
  end.

(** Running the job function of a thread job. *)
Definition run_thread_func (w : World) (j : ThreadJob)
    : option (World * GSimpleAsyncResult) :=
  match job_func j with
  | next_files_thread_fn => next_files_thread w (job_res j) (job_cancellable j)
  | close_async_thread_fn => Some (close_async_thread w (job_res j) (job_cancellable j))
  end.

(** Modelled from the spec: the Worker Scheduler (gioscheduler.c and
    gsimpleasyncresult.c are not part of the sources): it "executes offloaded
    jobs" and "posts completion back to the dispatcher".  The oldest job runs,
    and its result joins the idle queue.  With no job waiting nothing happens.
    Whatever the scheduler does of its own accord with the handle-cancellation
    flag of a result is not described there and is left out; the properties of
    the two job functions below are stated on the job functions themselves. *)
Definition run_thread_job (w : World) : option World :=
  match thread_jobs w with
  | [] => Some w
  | j :: js =>
      let w1 := {| priv := priv w; instance := instance w; vcalls := vcalls w;
                   current_cancellable := current_cancellable w;
                   thread_jobs := js; idle_queue := idle_queue w;
                   invoked := invoked w |} in
      match run_thread_func w1 j with
      | Some (w2, res) => Some (g_simple_async_result_complete_in_idle w2 res)
      | None => None
      end
  end.

(** Modelled from the spec: one turn of the main loop: the oldest completion
    of the idle queue is delivered. *)
Definition run_idle (w : World) : World :=
  match idle_queue w with
  | [] => w
  | res :: rest =>
      g_simple_async_result_complete
        {| priv := priv w; instance := instance w; vcalls := vcalls w;
           current_cancellable := current_cancellable w;
           thread_jobs := thread_jobs w; idle_queue := rest;
           invoked := invoked w |} res
  end.

(* ----------------------------------------------------------------- *)
(** *** Everything that can happen to a session *)

Inductive Op : Type :=
| OpNextFile (cancellable : option GCancellable)
| OpClose (cancellable : option GCancellable)
| OpNextFilesAsync (n io_priority : Z) (cancellable : option GCancellable)
    (cb : option UserCallback) (ud : gpointer)
| OpCloseAsync (io_priority : Z) (cancellable : option GCancellable)
    (cb : option UserCallback) (ud : gpointer)
| OpSetPending (b : bool)
| OpFinalize
| OpRunThreadJob
| OpRunIdle.

Definition step (w : World) (o : Op) : option World :=
  match o with
  | OpNextFile c => Some (snd (g_file_enumerator_next_file w c))
  | OpClose c => Some (snd (g_file_enumerator_close w c))
  | OpNextFilesAsync n p c cb ud =>
      Some (g_file_enumerator_next_files_async w n p c cb ud)
  | OpCloseAsync p c cb ud => Some (g_file_enumerator_close_async w p c cb ud)
  | OpSetPending b => Some (g_file_enumerator_set_pending w b)
  | OpFinalize => Some (g_file_enumerator_finalize w)
  | OpRunThreadJob => run_thread_job w
  | OpRunIdle => Some (run_idle w)
  end.

Fixpoint steps (w : World) (os : list Op) : option World :=
  match os with
  | [] => Some w
  | o :: os' =>
      match step w o with
      | Some w' => steps w' os'
      | None => None
      end
  end.

(* ----------------------------------------------------------------- *)
(** *** Vocabulary of the properties *)

(** [retrieves c i w fs w']: starting in world [w], the iterations [i], [i+1],
    ... of the worker loop each obtain an entry; [fs] lists the entries in the
    order they were obtained and [w'] is the world after the last of them. *)
Inductive retrieves (cancellable : option GCancellable)
    : nat -> World -> list GFileInfo -> World -> Prop :=
| retrieves_nil : forall i w, retrieves cancellable i w [] w
| retrieves_cons : forall i w f w1 fs w2,
    fetch_info w cancellable i = (Info f, w1) ->
    retrieves cancellable (S i) w1 fs w2 ->
    retrieves cancellable i w (f :: fs) w2.

(** The entries among a log of virtual calls, in the order of the log. *)
Fixpoint infos_of (log : list VCall) : list GFileInfo :=
  match log with
  | [] => []
  | VNextFile (Info f) :: log' => f :: infos_of log'
  | _ :: log' => infos_of log'
  end.

(** An error slot holds a [G_IO_ERROR] with the given code. *)
Definition io_error (c : GIOErrorEnum) (e : option GError) : Prop :=
  exists err, e = Some err /\ domain err = G_IO_ERROR /\ code err = c.

(** Nothing of the session moved between [w] and [w']: the private struct, the
    subclass instance, the log of virtual calls, the current cancellables, the
    submitted jobs and the delivered callbacks are the same.  Only the idle
    queue may differ. *)
Definition session_untouched (w w' : World) : Prop :=
  priv w' = priv w /\ instance w' = instance w /\ vcalls w' = vcalls w /\
  current_cancellable w' = current_cancellable w /\
  thread_jobs w' = thread_jobs w /\ invoked w' = invoked w.

(** The outstanding error, when there is one, is not a cancellation. *)
Definition outstanding_not_cancelled (w : World) : Prop :=
  forall e, outstanding_error (priv w) = Some e -> is_cancelled_error e = false.

(** A result whose callback is one of the two static wrappers belongs to an
    asynchronous operation that passed the guards. *)
Definition wrapped (res : GSimpleAsyncResult) : bool :=
  match callback res with
  | Some next_async_callback_wrapper_fn => true
  | Some close_async_callback_wrapper_fn => true
  | _ => false
  end.

(** The accepted asynchronous operations not yet delivered: those waiting as
    jobs and those waiting as completions. *)
Definition in_flight (w : World) : nat :=
  length (filter (fun j => wrapped (job_res j)) (thread_jobs w)) +
  length (filter wrapped (idle_queue w)).

(** A job for next_files_thread carries the op the thread dereferences. *)
Definition job_has_op (j : ThreadJob) : Prop :=
  job_func j = next_files_thread_fn -> op_res (job_res j) <> None.

(** Operations that go through the public setter of [pending]. *)
Definition is_set_pending (o : Op) : bool :=
  match o with
  | OpSetPending _ => true
  | _ => false
  end.

(** A log entry is a call of the virtual [next_file]. *)
Definition is_next_file_call (v : VCall) : bool :=
  match v with
  | VNextFile _ => true
  | VClose _ => false
  end.

(** A fresh session: g_file_enumerator_init leaves the private struct zeroed. *)
Definition g_file_enumerator_init (b : B) : World :=
  {| priv := {| closed := false; pending := false;
                outstanding_callback := None; outstanding_error := None |};
     instance := b; vcalls := []; current_cancellable := [];
     thread_jobs := []; idle_queue := []; invoked := [] |}.

End Enumerator.

Arguments World B : clear implicits.

(* ================================================================= *)
(** ** A scripted subclass *)

(** A subclass whose [next_file] replays a script, answering end of enumerator
    once the script is used up, and whose [close] answers a fixed result. *)
Record Script : Type := {
  script : list NextFileResult;
  on_close : CloseResult
}.

#[export] Instance script_class : GFileEnumeratorClass Script := {|
  next_file s _ :=
    match script s with
    | [] => (EndOfEnumerator, s)
    | r :: rest => (r, {| script := rest; on_close := on_close s |})
    end;
  close s _ := (on_close s, s)
|}.

Definition io_failure : GError :=
  g_set_error G_IO_ERROR G_IO_ERROR_FAILED "Error reading directory".

(** A token that is cancelled from its [k]-th poll on. *)
Definition cancelled_from (k : nat) : GCancellable :=
  {| cancelled_at i := k <=? i |}.

(** One batch from request to delivered callback: the asynchronous read of [n]
    files with callback [f], the scheduler running the job, the main loop
    delivering the completion. *)
Definition one_batch (n : Z) (f : UserCallback) : list Op :=
  [OpNextFilesAsync n 0 None (Some f) 0; OpRunThreadJob; OpRunIdle].

(** A fresh session over a scripted subclass. *)
Definition session_of (rs : list NextFileResult) (cl : CloseResult) : World Script :=
  g_file_enumerator_init {| script := rs; on_close := cl |}.

(* ================================================================= *)
(** ** Properties *)

Section Properties.

Context {B : Type} `{GFileEnumeratorClass B}.

Implicit Types (w : World B) (c : option GCancellable).

(* ----------------------------------------------------------------- *)
(** *** What the virtual calls leave alone *)

Lemma infos_of_app : forall l1 l2,
  infos_of (l1 ++ l2) = infos_of l1 ++ infos_of l2.
Proof.
  induction l1 as [|[[f| |e]|r] l1 IH]; intros l2; simpl;
    rewrite ?IH; reflexivity.
Qed.

Lemma class_next_file_frame : forall w c r w1,
  class_next_file w c = (r, w1) ->
  r = fst (next_file (instance w) c) /\
  instance w1 = snd (next_file (instance w) c) /\
  priv w1 = priv w /\
  vcalls w1 = vcalls w ++ [VNextFile r] /\
  current_cancellable w1 = current_cancellable w /\
  thread_jobs w1 = thread_jobs w /\
  idle_queue w1 = idle_queue w /\
  invoked w1 = invoked w.
Proof.
  intros w c r w1. unfold class_next_file.
  destruct (next_file (instance w) c) as [r0 b] eqn:E.
  intros Heq. inversion Heq; subst. simpl. repeat split; reflexivity.
Qed.

Lemma class_close_frame : forall w c r w1,
  class_close w c = (r, w1) ->
  r = fst (close (instance w) c) /\
  instance w1 = snd (close (instance w) c) /\
  priv w1 = priv w /\
  vcalls w1 = vcalls w ++ [VClose r] /\
  current_cancellable w1 = current_cancellable w /\
  thread_jobs w1 = thread_jobs w /\
  idle_queue w1 = idle_queue w /\
  invoked w1 = invoked w.
Proof.
  intros w c r w1. unfold class_close.
  destruct (close (instance w) c) as [r0 b] eqn:E.
  intros Heq. inversion Heq; subst. simpl. repeat split; reflexivity.
Qed.

(** One iteration's retrieval touches nothing of the session but the subclass
    and the log, and the log grows by at most the one call made. *)
Lemma fetch_info_frame : forall w c i r w1,
  fetch_info w c i = (r, w1) ->
  priv w1 = priv w /\
  (exists log, vcalls w1 = vcalls w ++ log /\
               infos_of log = match r with Info f => [f] | _ => [] end) /\
  current_cancellable w1 = current_cancellable w /\
  thread_jobs w1 = thread_jobs w /\
  idle_queue w1 = idle_queue w /\
  invoked w1 = invoked w.
Proof.
  intros w c i r w1. unfold fetch_info.
  destruct (g_cancellable_set_error_if_cancelled c i) as [e|].
  - intros Heq. inversion Heq; subst.
    repeat split; try reflexivity.
    exists []. rewrite app_nil_r. split; reflexivity.
  - intros Heq. apply class_next_file_frame in Heq.
    destruct Heq as (_ & _ & Hp & Hl & Hc & Ht & Hi & Hv).
    repeat split; try assumption.
    exists [VNextFile r]. split; [assumption|].
    destruct r; reflexivity.
Qed.

(* ----------------------------------------------------------------- *)
(** *** The worker loop *)

(** Whatever the loop does, the files of the op are the entries the subclass
    handed out during the loop, last one first, in front of what the op held;
    the [closed] and [pending] bits and the stored callback are not touched;
    and the queues are not touched. *)
Lemma next_files_loop_spec : forall todo i c w op w' op' e,
  next_files_loop todo i c w op = (w', op', e) ->
  (exists log, vcalls w' = vcalls w ++ log /\
               files op' = rev (infos_of log) ++ files op) /\
  num_files op' = num_files op /\
  closed (priv w') = closed (priv w) /\
  pending (priv w') = pending (priv w) /\
  outstanding_callback (priv w') = outstanding_callback (priv w) /\
  current_cancellable w' = current_cancellable w /\
  thread_jobs w' = thread_jobs w /\
  idle_queue w' = idle_queue w /\
  invoked w' = invoked w.
Proof.
  induction todo as [|todo IH]; intros i c w op w' op' e; simpl.
  - intros Heq. inversion Heq; subst.
    repeat split; try reflexivity.
    exists []. rewrite app_nil_r. split; reflexivity.
  - destruct (fetch_info w c i) as [r w1] eqn:Ef.
    apply fetch_info_frame in Ef.
    destruct Ef as (Hp & (log1 & Hl1 & Hi1) & Hc & Ht & Hq & Hv).
    destruct r as [f| |err].
    + intros Heq. apply IH in Heq.
      destruct Heq as ((log2 & Hl2 & Hf2) & Hn & Hcl & Hpe & Hcb & Hc2 & Ht2 & Hq2 & Hv2).
      rewrite Hp in *. simpl in Hn. repeat split; try congruence.
      exists (log1 ++ log2). split.
      * rewrite Hl2, Hl1, app_assoc. reflexivity.
      * rewrite Hf2. simpl. rewrite infos_of_app, Hi1, rev_app_distr.
        simpl. rewrite <- app_assoc. reflexivity.
    + intros Heq. inversion Heq; subst.
      rewrite Hp. repeat split; try assumption; try reflexivity.
      exists log1. rewrite Hi1. split; [assumption|reflexivity].
    + destruct (0 <? i); [destruct (is_cancelled_error err)|];
        intros Heq; inversion Heq; subst; simpl;
        rewrite ?Hp; repeat split; try assumption; try reflexivity;
        exists log1; rewrite Hi1; (split; [assumption|reflexivity]).
Qed.

(** While entries keep coming the loop keeps going. *)
Lemma next_files_loop_retrieves : forall c i w fs w1,
  retrieves c i w fs w1 ->
  forall todo op,
    next_files_loop (length fs + todo) i c w op =
    next_files_loop todo (length fs + i) c w1
      {| num_files := num_files op; files := rev fs ++ files op |}.
Proof.
  intros c i w fs w1 Hr.
  induction Hr as [i w|i w f w1 fs w2 Hf Hr IH]; intros todo op.
  - destruct op; reflexivity.
  - simpl. rewrite Hf, IH. simpl.
    rewrite <- app_assoc, Nat.add_succ_r. reflexivity.
Qed.

Lemma retrieves_priv : forall c i w fs w1,
  retrieves c i w fs w1 -> priv w1 = priv w.
Proof.
  intros c i w fs w1 Hr.
  induction Hr as [i w|i w f w1 fs w2 Hf Hr IH]; [reflexivity|].
  apply fetch_info_frame in Hf. destruct Hf as (Hp & _). congruence.
Qed.

(** The worker always returns once its result carries an op, and writes
    nothing into the result but the files of that op. *)
Lemma next_files_thread_runs : forall w res op c,
  op_res res = Some op ->
  exists w' op' e,
    next_files_loop (Z.to_nat (num_files op)) 0 c w op = (w', op', e) /\
    next_files_thread w res c =
      Some (w', g_simple_async_result_set_op_res_gpointer res op').
Proof.
  intros w res op c Hop. unfold next_files_thread. rewrite Hop.
  destruct (next_files_loop (Z.to_nat (num_files op)) 0 c w op) as [[w' op'] e].
  exists w', op', e. split; reflexivity.
Qed.

(* ----------------------------------------------------------------- *)
(** *** Synchronous close *)

(** On an open session with nothing pending, close makes exactly one virtual
    call, leaves the session closed and not pending whatever that call
    answered, hands the error of that call to the caller, and returns TRUE. *)
Lemma g_file_enumerator_close_open : forall w c,
  closed (priv w) = false -> pending (priv w) = false ->
  exists w',
    g_file_enumerator_close w c =
      ((true, close_error (fst (close (instance w) c))), w') /\
    closed (priv w') = true /\ pending (priv w') = false /\
    outstanding_error (priv w') = outstanding_error (priv w) /\
    outstanding_callback (priv w') = outstanding_callback (priv w) /\
    instance w' = snd (close (instance w) c) /\
    vcalls w' = vcalls w ++ [VClose (fst (close (instance w) c))] /\
    current_cancellable w' = current_cancellable w /\
    thread_jobs w' = thread_jobs w /\ idle_queue w' = idle_queue w /\
    invoked w' = invoked w.
Proof.
  intros [[cl pe ocb oerr] b l cc tj iq inv] c Hc Hp. simpl in Hc, Hp. subst.
  unfold g_file_enumerator_close, class_close. simpl.
  destruct c as [t|]; simpl; destruct (close b _) as [r b'];
    eexists; (split; [reflexivity|]); simpl; repeat split; reflexivity.
Qed.

Lemma g_file_enumerator_close_closed : forall w c,
  closed (priv w) = true ->
  g_file_enumerator_close w c = ((true, None), w).
Proof.
  intros w c Hc. unfold g_file_enumerator_close. rewrite Hc. reflexivity.
Qed.

(** C6.  Synchronous close is idempotent.  On any closed session [wc] a close
    returns TRUE with no error and changes nothing, the log of virtual calls
    included.  And of two closes in a row on an open session with nothing
    pending, the first makes the one virtual close call and the second finds
    the session closed, succeeds and makes none: after both, the log holds the
    single call of the first. *)
Theorem g_file_enumerator_close_idempotent : forall w wc c c1 c2,
  closed (priv w) = false -> pending (priv w) = false ->
  closed (priv wc) = true ->
  g_file_enumerator_close wc c = ((true, None), wc) /\
  (let w1 := snd (g_file_enumerator_close w c1) in
   let w2 := snd (g_file_enumerator_close w1 c2) in
   vcalls w1 = vcalls w ++ [VClose (fst (close (instance w) c1))] /\
   closed (priv w1) = true /\
   fst (g_file_enumerator_close w1 c2) = (true, None) /\
   w2 = w1 /\
   vcalls w2 = vcalls w ++ [VClose (fst (close (instance w) c1))]).
Proof.
  intros w wc c c1 c2 Hc Hp Hwc. split.
  - apply g_file_enumerator_close_closed; assumption.
  - destruct (g_file_enumerator_close_open w c1 Hc Hp)
      as (w1 & Heq & Hcl & _ & _ & _ & _ & Hlog & _).
    rewrite Heq. simpl.
    rewrite (g_file_enumerator_close_closed w1 c2 Hcl). simpl.
    repeat split; assumption.
Qed.

(* ----------------------------------------------------------------- *)
(** *** The read of zero files *)

(** C9.  A request for zero files makes no virtual call and submits no job.
    It invokes no callback before it returns: its one effect is a completion
    appended to the idle queue.  That completion carries the caller's callback
    and user data, is tagged with g_file_enumerator_next_files_async itself,
    and the finish call on it returns the empty list with no error.  Delivering
    the completion later makes no virtual call either. *)
Theorem zero_files_request_completes_in_idle : forall w p c cb ud,
  exists res,
    let w' := g_file_enumerator_next_files_async w 0 p c cb ud in
    idle_queue w' = idle_queue w ++ [res] /\
    vcalls w' = vcalls w /\ instance w' = instance w /\
    thread_jobs w' = thread_jobs w /\
    invoked w' = invoked w /\
    callback res = option_map user_callback cb /\
    user_data res = ud /\
    source_tag res = Some tag_g_file_enumerator_next_files_async /\
    g_file_enumerator_next_files_finish res = Some ([], None) /\
    (forall w2, vcalls (g_simple_async_result_complete w2 res) = vcalls w2 /\
                thread_jobs (g_simple_async_result_complete w2 res) = thread_jobs w2).
Proof.
  intros w p c cb ud. eexists. unfold g_file_enumerator_next_files_async.
  simpl. repeat split; try reflexivity;
    destruct cb; reflexivity.
Qed.

(** C10.  The test for zero files comes before the tests of [closed] and
    [pending] and nothing reads the outstanding error: on every session, closed
    or not, pending or not, with or without an outstanding error, the request
    for zero files leaves the whole private struct as it was, and its
    completion carries no error, so that the finish call returns the empty list
    and neither the closed nor the pending error.  Delivering that completion
    leaves the private struct alone as well. *)
Theorem zero_files_request_ignores_session_state : forall w p c cb ud,
  let w' := g_file_enumerator_next_files_async w 0 p c cb ud in
  priv w' = priv w /\
  session_untouched w w' /\
  exists res,
    idle_queue w' = idle_queue w ++ [res] /\
    error res = None /\
    g_file_enumerator_next_files_finish res = Some ([], None) /\
    ~ io_error G_IO_ERROR_CLOSED (error res) /\
    ~ io_error G_IO_ERROR_PENDING (error res) /\
    (forall w2, priv (g_simple_async_result_complete w2 res) = priv w2).
Proof.
  intros w p c cb ud. unfold g_file_enumerator_next_files_async. simpl.
  split; [reflexivity|]. split; [repeat split; reflexivity|].
  eexists. split; [reflexivity|]. simpl.
  repeat split; try reflexivity;
    try (intros (e & He & _); discriminate).
  destruct cb; reflexivity.
Qed.

(* ----------------------------------------------------------------- *)
(** *** The outstanding error and the synchronous read *)

(** The synchronous read hands out an outstanding error as it is and empties
    the slot, without a virtual call. *)
Lemma g_file_enumerator_next_file_outstanding : forall w c e,
  closed (priv w) = false -> pending (priv w) = false ->
  outstanding_error (priv w) = Some e ->
  g_file_enumerator_next_file w c =
    ((None, Some e), with_priv w (priv_set_outstanding_error (priv w) None)).
Proof.
  intros w c e Hc Hp He. unfold g_file_enumerator_next_file.
  rewrite Hc, Hp, He. reflexivity.
Qed.

(** With an empty slot the synchronous read is the virtual call. *)
Lemma g_file_enumerator_next_file_delegates : forall w c,
  closed (priv w) = false -> pending (priv w) = false ->
  outstanding_error (priv w) = None ->
  fst (g_file_enumerator_next_file w c) =
    next_file_return (fst (next_file (instance w) c)) /\
  priv (snd (g_file_enumerator_next_file w c)) = priv w /\
  vcalls (snd (g_file_enumerator_next_file w c)) =
    vcalls w ++ [VNextFile (fst (next_file (instance w) c))].
Proof.
  intros [[cl pe ocb oerr] b l cc tj iq inv] c Hc Hp He.
  simpl in Hc, Hp, He. subst.
  unfold g_file_enumerator_next_file, class_next_file. simpl.
  destruct c as [t|]; simpl; destruct (next_file b _) as [r b'];
    simpl; repeat split; reflexivity.
Qed.

(* ----------------------------------------------------------------- *)
(** *** Guards of a pending session *)

Lemma report_error_in_idle_untouched : forall w cb ud d k msg,
  session_untouched w (g_simple_async_report_error_in_idle w cb ud d k msg).
Proof.
  intros. repeat split; reflexivity.
Qed.

Lemma g_file_enumerator_next_files_async_guarded : forall w n p c cb ud,
  closed (priv w) = true \/ pending (priv w) = true ->
  session_untouched w (g_file_enumerator_next_files_async w n p c cb ud).
Proof.
  intros w n p c cb ud Hg. unfold g_file_enumerator_next_files_async.
  destruct (n <? 0)%Z; [repeat split; reflexivity|].
  destruct (n =? 0)%Z; [repeat split; reflexivity|].
  destruct (closed (priv w)); [apply report_error_in_idle_untouched|].
  destruct (pending (priv w)); [apply report_error_in_idle_untouched|].
  destruct Hg; discriminate.
Qed.

Lemma g_file_enumerator_close_async_guarded : forall w p c cb ud,
  closed (priv w) = true \/ pending (priv w) = true ->
  session_untouched w (g_file_enumerator_close_async w p c cb ud).
Proof.
  intros w p c cb ud Hg. unfold g_file_enumerator_close_async.
  destruct (closed (priv w)); [apply report_error_in_idle_untouched|].
  destruct (pending (priv w)); [apply report_error_in_idle_untouched|].
  destruct Hg; discriminate.
Qed.

Lemma io_error_intro : forall k msg,
  io_error k (Some (g_set_error G_IO_ERROR k msg)).
Proof.
  intros k msg. eexists. split; [reflexivity|]. split; reflexivity.
Qed.

(** C7, as the code has it.  On a session with [pending] set, none of the four
    operations moves the session: the two synchronous ones return the world
    they were given, the two asynchronous ones at most append a completion to
    the idle queue; the private struct (closed, pending, outstanding error) is
    as before and no virtual call is made.  When moreover the session is not
    closed, the synchronous read and close fail with G_IO_ERROR_PENDING, and
    the asynchronous close and the asynchronous read of a positive number of
    files complete with G_IO_ERROR_PENDING, which their finish calls hand
    out. *)
Theorem pending_session_rejects : forall w c n p cb ud,
  pending (priv w) = true ->
  snd (g_file_enumerator_next_file w c) = w /\
  snd (g_file_enumerator_close w c) = w /\
  session_untouched w (g_file_enumerator_next_files_async w n p c cb ud) /\
  session_untouched w (g_file_enumerator_close_async w p c cb ud) /\
  (closed (priv w) = false ->
   (fst (fst (g_file_enumerator_next_file w c)) = None /\
    io_error G_IO_ERROR_PENDING (snd (fst (g_file_enumerator_next_file w c)))) /\
   (fst (fst (g_file_enumerator_close w c)) = false /\
    io_error G_IO_ERROR_PENDING (snd (fst (g_file_enumerator_close w c)))) /\
   ((0 < n)%Z ->
    exists res e,
      idle_queue (g_file_enumerator_next_files_async w n p c cb ud)
        = idle_queue w ++ [res] /\
      g_file_enumerator_next_files_finish res = Some ([], Some e) /\
      io_error G_IO_ERROR_PENDING (Some e)) /\
   (exists res e,
      idle_queue (g_file_enumerator_close_async w p c cb ud)
        = idle_queue w ++ [res] /\
      g_file_enumerator_close_finish res = Some (false, Some e) /\
      io_error G_IO_ERROR_PENDING (Some e))).
Proof.
  intros w c n p cb ud Hp.
  split; [|split; [|split; [|split]]].
  - unfold g_file_enumerator_next_file. rewrite Hp.
    destruct (closed (priv w)); reflexivity.
  - unfold g_file_enumerator_close. rewrite Hp.
    destruct (closed (priv w)); reflexivity.
  - apply g_file_enumerator_next_files_async_guarded. right; assumption.
  - apply g_file_enumerator_close_async_guarded. right; assumption.
  - intros Hc. split; [|split; [|split]].
    + unfold g_file_enumerator_next_file. rewrite Hc, Hp. simpl.
      split; [reflexivity|apply io_error_intro].
    + unfold g_file_enumerator_close. rewrite Hc, Hp. simpl.
      split; [reflexivity|apply io_error_intro].
    + intros Hn. unfold g_file_enumerator_next_files_async.
      destruct (Z.ltb_spec n 0); [lia|].
      destruct (Z.eqb_spec n 0); [lia|].
      rewrite Hc, Hp. do 2 eexists.
      split; [reflexivity|]. split; [reflexivity|apply io_error_intro].
    + unfold g_file_enumerator_close_async. rewrite Hc, Hp. do 2 eexists.
      split; [reflexivity|]. split; [reflexivity|apply io_error_intro].
Qed.

(* ----------------------------------------------------------------- *)
(** *** Closed is final *)

Lemma invoke_callback_priv : forall w cb res ud,
  priv (invoke_callback w cb res ud) = priv w.
Proof.
  intros w [f|] res ud; reflexivity.
Qed.

Lemma close_async_callback_wrapper_closes : forall w res ud,
  closed (priv (close_async_callback_wrapper w res ud)) = true /\
  pending (priv (close_async_callback_wrapper w res ud)) = false.
Proof.
  intros w res ud. unfold close_async_callback_wrapper.
  rewrite invoke_callback_priv. split; reflexivity.
Qed.

Lemma g_simple_async_result_complete_closed : forall w res,
  closed (priv w) = true ->
  closed (priv (g_simple_async_result_complete w res)) = true.
Proof.
  intros w res Hc. unfold g_simple_async_result_complete.
  destruct (callback res) as [[f| |]|]; try assumption.
  - unfold next_async_callback_wrapper. rewrite invoke_callback_priv.
    assumption.
  - apply close_async_callback_wrapper_closes.
Qed.

Lemma g_file_enumerator_next_file_closed_bit : forall w c,
  closed (priv (snd (g_file_enumerator_next_file w c))) = closed (priv w).
Proof.
  intros [[cl pe ocb oerr] b l cc tj iq inv] c.
  unfold g_file_enumerator_next_file, class_next_file. simpl.
  destruct cl; [reflexivity|]. destruct pe; [reflexivity|].
  destruct oerr; [reflexivity|].
  destruct c as [t|]; simpl; destruct (next_file b _); reflexivity.
Qed.

Lemma run_thread_func_closed_bit : forall w j w' res,
  run_thread_func w j = Some (w', res) ->
  closed (priv w') = closed (priv w).
Proof.
  intros w j w' res. unfold run_thread_func.
  destruct (job_func j).
  - unfold next_files_thread. destruct (op_res (job_res j)) as [op|]; [|discriminate].
    destruct (next_files_loop _ _ _ _ _) as [[w1 op1] e] eqn:El.
    intros Heq. inversion Heq; subst.
    apply next_files_loop_spec in El. tauto.
  - unfold close_async_thread.
    destruct (class_close w (job_cancellable j)) as [r w1] eqn:Ec.
    apply class_close_frame in Ec. destruct Ec as (_ & _ & Hp & _).
    destruct r; intros Heq; inversion Heq; subst; rewrite Hp; reflexivity.
Qed.

(** No step of a session, and no step of the scheduler or of the main loop,
    clears the [closed] bit. *)
Lemma step_closed : forall w o w',
  step w o = Some w' -> closed (priv w) = true -> closed (priv w') = true.
Proof.
  intros w o w' Hs Hc. destruct o; simpl in Hs.
  - inversion Hs; subst. rewrite g_file_enumerator_next_file_closed_bit.
    assumption.
  - inversion Hs; subst.
    rewrite (g_file_enumerator_close_closed w cancellable Hc). assumption.
  - inversion Hs; subst.
    destruct (g_file_enumerator_next_files_async_guarded w n io_priority
                cancellable cb ud (or_introl Hc)) as (Hp & _).
    rewrite Hp. assumption.
  - inversion Hs; subst.
    destruct (g_file_enumerator_close_async_guarded w io_priority
                cancellable cb ud (or_introl Hc)) as (Hp & _).
    rewrite Hp. assumption.
  - inversion Hs; subst. assumption.
  - inversion Hs; subst. unfold g_file_enumerator_finalize. rewrite Hc.
    assumption.
  - unfold run_thread_job in Hs.
    destruct (thread_jobs w) as [|j js]; [inversion Hs; subst; assumption|].
    destruct (run_thread_func _ j) as [[w2 res]|] eqn:Er; [|discriminate].
    inversion Hs; subst. apply run_thread_func_closed_bit in Er.
    simpl in *. congruence.
  - inversion Hs; subst. unfold run_idle.
    destruct (idle_queue w) as [|res rest]; [assumption|].
    apply g_simple_async_result_complete_closed. assumption.
Qed.

Lemma steps_closed : forall os w w',
  steps w os = Some w' -> closed (priv w) = true -> closed (priv w') = true.
Proof.
  induction os as [|o os IH]; intros w w' Hs Hc; simpl in Hs.
  - inversion Hs; subst. assumption.
  - destruct (step w o) as [w1|] eqn:E1; [|discriminate].
    apply (IH w1); [assumption|]. eapply step_closed; eassumption.
Qed.

(** C8, as the code has it.  A completed close leaves the session closed: the
    synchronous close of a session with nothing pending does, whatever the
    subclass answered, and so does the completion wrapper of the asynchronous
    close.  From a closed session no sequence of operations, scheduler steps
    and main loop turns reaches a session that is not closed.  And on a closed
    session the synchronous read fails with G_IO_ERROR_CLOSED, the synchronous
    close returns TRUE with no error, and the asynchronous close and the
    asynchronous read of a positive number of files complete with
    G_IO_ERROR_CLOSED, which their finish calls hand out. *)
Theorem closed_is_terminal : forall w w0 c0 res0 ud0 c n p cb ud,
  closed (priv w) = true ->
  (pending (priv w0) = false ->
   closed (priv (snd (g_file_enumerator_close w0 c0))) = true) /\
  closed (priv (close_async_callback_wrapper w0 res0 ud0)) = true /\
  (forall os w', steps w os = Some w' -> closed (priv w') = true) /\
  (fst (fst (g_file_enumerator_next_file w c)) = None /\
   io_error G_IO_ERROR_CLOSED (snd (fst (g_file_enumerator_next_file w c)))) /\
  g_file_enumerator_close w c = ((true, None), w) /\
  ((0 < n)%Z ->
   exists res e,
     idle_queue (g_file_enumerator_next_files_async w n p c cb ud)
       = idle_queue w ++ [res] /\
     g_file_enumerator_next_files_finish res = Some ([], Some e) /\
     io_error G_IO_ERROR_CLOSED (Some e)) /\
  (exists res e,
     idle_queue (g_file_enumerator_close_async w p c cb ud)
       = idle_queue w ++ [res] /\
     g_file_enumerator_close_finish res = Some (false, Some e) /\
     io_error G_IO_ERROR_CLOSED (Some e)).
Proof.
  intros w w0 c0 res0 ud0 c n p cb ud Hc.
  split; [|split; [|split; [|split; [|split; [|split]]]]].
  - intros Hp0. destruct (closed (priv w0)) eqn:Hc0.
    + rewrite (g_file_enumerator_close_closed w0 c0 Hc0). assumption.
    + destruct (g_file_enumerator_close_open w0 c0 Hc0 Hp0) as (w1 & Heq & Hcl & _).
      rewrite Heq. assumption.
  - apply close_async_callback_wrapper_closes.
  - intros os w' Hs. eapply steps_closed; eassumption.
  - unfold g_file_enumerator_next_file. rewrite Hc. simpl.
    split; [reflexivity|apply io_error_intro].
  - apply g_file_enumerator_close_closed. assumption.
  - intros Hn. unfold g_file_enumerator_next_files_async.
    destruct (Z.ltb_spec n 0); [lia|].
    destruct (Z.eqb_spec n 0); [lia|].
    rewrite Hc. do 2 eexists.
    split; [reflexivity|]. split; [reflexivity|apply io_error_intro].
  - unfold g_file_enumerator_close_async. rewrite Hc. do 2 eexists.
    split; [reflexivity|]. split; [reflexivity|apply io_error_intro].
Qed.

(* ----------------------------------------------------------------- *)
(** *** The default batch: what the finish call returns *)

(** What the worker leaves in the result created for a batch: never an error,
    and as files the entries obtained from the subclass while it ran, the last
    one first. *)
Lemma next_files_thread_files : forall wj n cb ud c,
  exists wj' res' log,
    next_files_thread wj (next_async_result n cb ud) c = Some (wj', res') /\
    vcalls wj' = vcalls wj ++ log /\
    error res' = None /\
    g_file_enumerator_next_files_finish res' = Some (rev (infos_of log), None).
Proof.
  intros wj n cb ud c.
  destruct (next_files_thread_runs wj (next_async_result n cb ud) _ c eq_refl)
    as (wj' & op' & e & Hl & Ht).
  apply next_files_loop_spec in Hl. destruct Hl as ((log & Hlog & Hf) & _).
  exists wj', (g_simple_async_result_set_op_res_gpointer
                 (next_async_result n cb ud) op'), log.
  split; [exact Ht|]. split; [exact Hlog|]. split; [reflexivity|].
  unfold g_file_enumerator_next_files_finish,
    g_file_enumerator_real_next_files_finish. simpl.
  rewrite Hf. simpl. rewrite app_nil_r. reflexivity.
Qed.

(** C3, as the code has it.  A request for a positive number of files on an
    open session with nothing pending submits one job.  Whenever the scheduler
    runs that job, the job returns, and the list that the finish call on its
    result returns holds the entries the subclass handed out during the job in
    the REVERSE of the order in which it handed them out: the worker prepends
    each entry and nothing reverses the list.  The statement is about the list
    alone; it says nothing of the error that may or may not come with it. *)
Theorem next_files_finish_reverses_retrieval_order : forall w n p c cb ud,
  closed (priv w) = false -> pending (priv w) = false -> (0 < n)%Z ->
  exists job,
    thread_jobs (g_file_enumerator_next_files_async w n p c cb ud)
      = thread_jobs w ++ [job] /\
    forall wj, exists wj' res' log,
      run_thread_func wj job = Some (wj', res') /\
      vcalls wj' = vcalls wj ++ log /\
      option_map fst (g_file_enumerator_next_files_finish res')
        = Some (rev (infos_of log)).
Proof.
  intros w n p c cb ud Hc Hp Hn.
  unfold g_file_enumerator_next_files_async.
  destruct (Z.ltb_spec n 0); [lia|].
  destruct (Z.eqb_spec n 0); [lia|].
  rewrite Hc, Hp. eexists. split; [reflexivity|].
  intros wj. unfold run_thread_func. simpl.
  destruct (next_files_thread_files wj n
              (Some next_async_callback_wrapper_fn) ud c)
    as (wj' & res' & log & Ht & Hl & _ & Hf).
  exists wj', res', log. rewrite Hf. repeat split; assumption.
Qed.

(* ----------------------------------------------------------------- *)
(** *** The default batch: a cancellation after the first file *)

(** C5.  Let the worker of a batch of [n] files obtain the entries [fs], at
    least one and fewer than [n], and let the next iteration fail with a
    cancellation error, raised by the poll of the token or handed back by the
    subclass.  Then the worker ends in the world [w2] that iteration left; its
    result carries no error, and the finish call on it returns the entries
    obtained, with no error; the private struct is what it was before the
    worker ran, so no outstanding error was recorded; and once the completion
    wrapper has run, a synchronous read on a session that was open with an
    empty slot goes to the subclass and returns what the subclass returns,
    not the cancellation. *)
Theorem next_files_thread_discards_cancellation :
  forall w n c cb ud fs w1 e w2,
  retrieves c 0 w fs w1 ->
  fs <> [] ->
  (Z.of_nat (length fs) < n)%Z ->
  fetch_info w1 c (length fs) = (NextError e, w2) ->
  is_cancelled_error e = true ->
  exists res',
    next_files_thread w (next_async_result n cb ud) c = Some (w2, res') /\
    error res' = None /\
    g_file_enumerator_next_files_finish res' = Some (rev fs, None) /\
    priv w2 = priv w /\
    outstanding_error (priv (next_async_callback_wrapper w2 res' ud))
      = outstanding_error (priv w) /\
    (closed (priv w) = false -> outstanding_error (priv w) = None ->
     forall c',
       fst (g_file_enumerator_next_file
              (next_async_callback_wrapper w2 res' ud) c')
       = next_file_return (fst (next_file (instance w2) c'))).
Proof.
  intros w n c cb ud fs w1 e w2 Hr Hne Hlen Hf Hcan.
  assert (Hp1 : priv w1 = priv w) by (eapply retrieves_priv; eassumption).
  assert (Hp2 : priv w2 = priv w).
  { apply fetch_info_frame in Hf. destruct Hf as (Hp & _). congruence. }
  assert (Hloop :
    next_files_loop (Z.to_nat n) 0 c w {| num_files := n; files := [] |}
    = (w2, {| num_files := n; files := rev fs |}, None)).
  { replace (Z.to_nat n) with (length fs + S (Z.to_nat n - S (length fs)))
      by lia.
    rewrite (next_files_loop_retrieves _ _ _ _ _ Hr). simpl.
    rewrite Nat.add_0_r, Hf, app_nil_r.
    destruct fs as [|f fs']; [contradiction|]. simpl. rewrite Hcan.
    reflexivity. }
  exists (g_simple_async_result_set_op_res_gpointer
            (next_async_result n cb ud) {| num_files := n; files := rev fs |}).
  split.
  { unfold next_files_thread. simpl. rewrite Hloop. reflexivity. }
  split; [reflexivity|]. split; [reflexivity|]. split; [exact Hp2|].
  unfold next_async_callback_wrapper. split.
  - rewrite invoke_callback_priv. simpl. rewrite Hp2. reflexivity.
  - intros Hc He c'.
    match goal with |- fst (g_file_enumerator_next_file ?W c') = _ =>
      assert (HW : priv W = priv_set_pending (priv w) false /\
                   instance W = instance w2)
    end.
    { rewrite invoke_callback_priv. simpl. rewrite Hp2. split; [reflexivity|].
      destruct (outstanding_callback (priv w)); reflexivity. }
    destruct HW as (HWp & HWi).
    match goal with |- fst (g_file_enumerator_next_file ?W c') = _ =>
      destruct (g_file_enumerator_next_file_delegates W c') as (Hd & _)
    end; try (rewrite HWp; simpl; assumption); try (rewrite HWp; reflexivity).
    rewrite Hd, HWi. reflexivity.
Qed.

(* ----------------------------------------------------------------- *)
(** *** No cancellation is ever kept for a later call *)

Lemma next_files_loop_outstanding : forall todo i c w op w' op' e,
  next_files_loop todo i c w op = (w', op', e) ->
  outstanding_not_cancelled w -> outstanding_not_cancelled w'.
Proof.
  induction todo as [|todo IH]; intros i c w op w' op' e; simpl.
  - intros Heq Hinv. inversion Heq; subst. assumption.
  - destruct (fetch_info w c i) as [r w1] eqn:Ef.
    apply fetch_info_frame in Ef. destruct Ef as (Hp & _).
    assert (Hinv1 : outstanding_not_cancelled w -> outstanding_not_cancelled w1).
    { unfold outstanding_not_cancelled. rewrite Hp. trivial. }
    destruct r as [f| |err].
    + intros Heq Hinv. eapply IH; [eassumption|auto].
    + intros Heq Hinv. inversion Heq; subst. auto.
    + destruct (0 <? i); [destruct (is_cancelled_error err) eqn:Ecan|];
        intros Heq Hinv; inversion Heq; subst; auto.
      intros e0. simpl. intros He0. inversion He0; subst. assumption.
Qed.

Lemma priv_outstanding_not_cancelled : forall w w',
  outstanding_error (priv w') = outstanding_error (priv w)
  \/ outstanding_error (priv w') = None ->
  outstanding_not_cancelled w -> outstanding_not_cancelled w'.
Proof.
  unfold outstanding_not_cancelled. intros w w' [Heq|Heq] Hinv e He.
  - apply Hinv. congruence.
  - congruence.
Qed.

Lemma g_file_enumerator_next_file_slot : forall w c,
  outstanding_error (priv (snd (g_file_enumerator_next_file w c)))
    = outstanding_error (priv w)
  \/ outstanding_error (priv (snd (g_file_enumerator_next_file w c))) = None.
Proof.
  intros [[cl pe ocb oerr] b l cc tj iq inv] c.
  unfold g_file_enumerator_next_file, class_next_file. simpl.
  destruct cl; [left; reflexivity|]. destruct pe; [left; reflexivity|].
  destruct oerr; [right; reflexivity|].
  destruct c as [t|]; simpl; destruct (next_file b _); left; reflexivity.
Qed.

Lemma g_file_enumerator_close_slot : forall w c,
  outstanding_error (priv (snd (g_file_enumerator_close w c)))
    = outstanding_error (priv w).
Proof.
  intros [[cl pe ocb oerr] b l cc tj iq inv] c.
  unfold g_file_enumerator_close, class_close. simpl.
  destruct cl; [reflexivity|]. destruct pe; [reflexivity|].
  destruct c as [t|]; simpl; destruct (close b _); reflexivity.
Qed.

Lemma g_file_enumerator_next_files_async_slot : forall w n p c cb ud,
  outstanding_error (priv (g_file_enumerator_next_files_async w n p c cb ud))
    = outstanding_error (priv w).
Proof.
  intros w n p c cb ud. unfold g_file_enumerator_next_files_async.
  destruct (n <? 0)%Z; [reflexivity|]. destruct (n =? 0)%Z; [reflexivity|].
  destruct (closed (priv w)); [reflexivity|].
  destruct (pending (priv w)); reflexivity.
Qed.

Lemma g_file_enumerator_close_async_slot : forall w p c cb ud,
  outstanding_error (priv (g_file_enumerator_close_async w p c cb ud))
    = outstanding_error (priv w).
Proof.
  intros w p c cb ud. unfold g_file_enumerator_close_async.
  destruct (closed (priv w)); [reflexivity|].
  destruct (pending (priv w)); reflexivity.
Qed.

Lemma g_simple_async_result_complete_slot : forall w res,
  outstanding_error (priv (g_simple_async_result_complete w res))
    = outstanding_error (priv w).
Proof.
  intros w res. unfold g_simple_async_result_complete,
    next_async_callback_wrapper, close_async_callback_wrapper.
  destruct (callback res) as [[f| |]|]; rewrite ?invoke_callback_priv;
    reflexivity.
Qed.

(** The only writer of the slot is the worker, and it writes no cancellation:
    every step keeps the slot free of cancellation errors. *)
Lemma step_outstanding_not_cancelled : forall w o w',
  step w o = Some w' ->
  outstanding_not_cancelled w -> outstanding_not_cancelled w'.
Proof.
  intros w o w' Hs. destruct o; simpl in Hs.
  - inversion Hs; subst. apply priv_outstanding_not_cancelled.
    apply g_file_enumerator_next_file_slot.
  - inversion Hs; subst. apply priv_outstanding_not_cancelled. left.
    apply g_file_enumerator_close_slot.
  - inversion Hs; subst. apply priv_outstanding_not_cancelled. left.
    apply g_file_enumerator_next_files_async_slot.
  - inversion Hs; subst. apply priv_outstanding_not_cancelled. left.
    apply g_file_enumerator_close_async_slot.
  - inversion Hs; subst. apply priv_outstanding_not_cancelled. left.
    reflexivity.
  - inversion Hs; subst. unfold g_file_enumerator_finalize.
    destruct (closed (priv w)); [trivial|].
    apply priv_outstanding_not_cancelled. left.
    apply g_file_enumerator_close_slot.
  - unfold run_thread_job in Hs.
    destruct (thread_jobs w) as [|j js] eqn:Ej;
      [inversion Hs; subst; trivial|].
    destruct (run_thread_func _ j) as [[w2 res]|] eqn:Er; [|discriminate].
    inversion Hs; subst. intros Hinv.
    apply (@priv_outstanding_not_cancelled w2); [left; reflexivity|].
    unfold run_thread_func in Er. destruct (job_func j).
    + unfold next_files_thread in Er.
      destruct (op_res (job_res j)) as [op|]; [|discriminate].
      destruct (next_files_loop _ _ _ _ _) as [[w3 op3] e] eqn:El.
      inversion Er; subst.
      eapply next_files_loop_outstanding; [eassumption|].
      exact Hinv.
    + unfold close_async_thread in Er.
      destruct (class_close _ (job_cancellable j)) as [r w3] eqn:Ec.
      apply class_close_frame in Ec. destruct Ec as (_ & _ & Hp & _).
      assert (Hp2 : priv w2 = priv w).
      { destruct r; inversion Er; subst; exact Hp. }
      eapply priv_outstanding_not_cancelled; [|exact Hinv].
      left. rewrite Hp2. reflexivity.
  - inversion Hs; subst. unfold run_idle.
    destruct (idle_queue w) as [|res rest]; [trivial|].
    apply priv_outstanding_not_cancelled. left.
    rewrite g_simple_async_result_complete_slot. reflexivity.
Qed.

(** From a fresh session no run ever holds a cancellation error in the slot
    that the synchronous read hands out. *)
Lemma steps_outstanding_not_cancelled : forall os w w',
  steps w os = Some w' ->
  outstanding_not_cancelled w -> outstanding_not_cancelled w'.
Proof.
  induction os as [|o os IH]; intros w w' Hs Hinv; simpl in Hs.
  - inversion Hs; subst. assumption.
  - destruct (step w o) as [w1|] eqn:E1; [|discriminate].
    apply (IH w1); [assumption|].
    eapply step_outstanding_not_cancelled; eassumption.
Qed.

End Properties.

(* ================================================================= *)
(** ** Runs over the scripted subclass *)

Section ScriptedRuns.

(** C1.  The subclass fails to close.  The synchronous close makes the virtual
    call, leaves the session closed and not pending, and passes the error of
    the subclass on, but its return value is TRUE: the value of the virtual
    call is dropped and the function ends in [return TRUE]. *)
Theorem g_file_enumerator_close_returns_true_on_failure :
  let w := session_of [] (CloseError io_failure) in
  close (instance w) None = (CloseError io_failure, instance w) /\
  fst (g_file_enumerator_close w None) = (true, Some io_failure) /\
  closed (priv (snd (g_file_enumerator_close w None))) = true /\
  pending (priv (snd (g_file_enumerator_close w None))) = false /\
  vcalls (snd (g_file_enumerator_close w None)) = [VClose (CloseError io_failure)].
Proof.
  repeat split; reflexivity.
Qed.

(** C2.  A batch of two obtains one entry and then fails with an I/O error:
    the finish call returns the entry and no error, and the error sits in the
    slot.  The next operation is a batch of one: nothing on its path reads
    the slot, the subclass is called, the finish call returns the new entry and
    no error, and the first error still sits in the slot.  Only a synchronous
    read hands it out. *)
Theorem next_files_async_skips_outstanding_error :
  let w0 := session_of [Info (FileInfo 1); NextError io_failure; Info (FileInfo 2)]
              CloseOk in
  exists w1 r1 w2 r2,
    steps w0 (one_batch 2 1) = Some w1 /\
    map cb_res (invoked w1) = [r1] /\
    g_file_enumerator_next_files_finish r1 = Some ([FileInfo 1], None) /\
    outstanding_error (priv w1) = Some io_failure /\
    steps w1 (one_batch 1 2) = Some w2 /\
    map cb_res (invoked w2) = [r1; r2] /\
    g_file_enumerator_next_files_finish r2 = Some ([FileInfo 2], None) /\
    outstanding_error (priv w2) = Some io_failure /\
    fst (g_file_enumerator_next_file w2 None) = (None, Some io_failure).
Proof.
  do 4 eexists. repeat apply conj; vm_compute; reflexivity.
Qed.

(** C4.  The first call of the worker fails with an I/O error.  The worker
    leaves the loop with the error in its local variable and returns: the
    result carries no error, the finish call returns the empty list and no
    error, and the slot of the session is empty, so the error is lost. *)
Theorem next_files_thread_drops_first_error :
  let w0 := session_of [NextError io_failure; Info (FileInfo 1)] CloseOk in
  exists w1 r,
    steps w0 (one_batch 3 1) = Some w1 /\
    vcalls w1 = [VNextFile (NextError io_failure)] /\
    map cb_res (invoked w1) = [r] /\
    error r = None /\
    g_file_enumerator_next_files_finish r = Some ([], None) /\
    outstanding_error (priv w1) = None.
Proof.
  do 2 eexists. repeat apply conj; vm_compute; reflexivity.
Qed.

(** C3 fails as stated: the subclass hands out entry 1 and then entry 2, and
    the finish call returns entry 2 before entry 1. *)
Lemma next_files_finish_order_counterexample :
  let w0 := session_of [Info (FileInfo 1); Info (FileInfo 2)] CloseOk in
  exists w1 r,
    steps w0 (one_batch 2 1) = Some w1 /\
    map cb_res (invoked w1) = [r] /\
    infos_of (vcalls w1) = [FileInfo 1; FileInfo 2] /\
    g_file_enumerator_next_files_finish r
      = Some ([FileInfo 2; FileInfo 1], None) /\
    g_file_enumerator_next_files_finish r
      <> Some (infos_of (vcalls w1), None).
Proof.
  do 2 eexists.
  split; [vm_compute; reflexivity|]. split; [vm_compute; reflexivity|].
  split; [vm_compute; reflexivity|]. split; [vm_compute; reflexivity|].
  vm_compute. discriminate.
Qed.

(** C7 fails as stated, twice.  On an open session with [pending] set, the
    asynchronous read of zero files completes with the empty list and no
    error.  And on a session that is closed and has [pending] set (the public
    setter allows it) the synchronous read fails with G_IO_ERROR_CLOSED and
    the synchronous close returns TRUE. *)
Lemma pending_error_counterexample :
  let w := g_file_enumerator_set_pending (session_of [] CloseOk) true in
  let wc := g_file_enumerator_set_pending
              (snd (g_file_enumerator_close (session_of [] CloseOk) None)) true in
  pending (priv w) = true /\
  (exists res,
     idle_queue (g_file_enumerator_next_files_async w 0 0 None (Some 1) 0) = [res] /\
     g_file_enumerator_next_files_finish res = Some ([], None) /\
     ~ io_error G_IO_ERROR_PENDING (error res)) /\
  pending (priv wc) = true /\
  ~ io_error G_IO_ERROR_PENDING (snd (fst (g_file_enumerator_next_file wc None))) /\
  fst (g_file_enumerator_close wc None) = (true, None).
Proof.
  split; [reflexivity|]. split.
  - eexists. split; [vm_compute; reflexivity|]. split; [reflexivity|].
    intros (e & He & _). discriminate.
  - split; [reflexivity|]. split; [|reflexivity].
    intros (e & He & _ & Hcode). vm_compute in He.
    inversion He; subst. discriminate.
Qed.

(** C8 fails as stated: on a session closed by a completed close, the
    asynchronous read of zero files completes with the empty list and no
    error, not with G_IO_ERROR_CLOSED. *)
Lemma closed_error_counterexample :
  let w := snd (g_file_enumerator_close (session_of [] CloseOk) None) in
  closed (priv w) = true /\
  exists res,
    idle_queue (g_file_enumerator_next_files_async w 0 0 None (Some 1) 0) = [res] /\
    g_file_enumerator_next_files_finish res = Some ([], None) /\
    ~ io_error G_IO_ERROR_CLOSED (error res).
Proof.
  split; [reflexivity|].
  eexists. split; [vm_compute; reflexivity|]. split; [reflexivity|].
  intros (e & He & _). discriminate.
Qed.

(* ----------------------------------------------------------------- *)
(** *** The general theorems at work *)

(** Two closes in a row on a fresh session whose subclass fails to close: one
    virtual call in all, and the second close succeeds. *)
Lemma g_file_enumerator_close_idempotent_witness :
  let w := session_of [] (CloseError io_failure) in
  let wc := snd (g_file_enumerator_close w None) in
  closed (priv w) = false /\ pending (priv w) = false /\
  closed (priv wc) = true /\
  g_file_enumerator_close wc None = ((true, None), wc) /\
  vcalls (snd (g_file_enumerator_close wc None))
    = [VClose (CloseError io_failure)].
Proof.
  intros w wc.
  assert (Hc : closed (priv w) = false) by reflexivity.
  assert (Hp : pending (priv w) = false) by reflexivity.
  assert (Hwc : closed (priv wc) = true) by reflexivity.
  destruct (g_file_enumerator_close_idempotent w wc None None None Hc Hp Hwc)
    as (Hclosed & _ & _ & _ & _ & Hlog).
  repeat apply conj; try assumption.
Defined.

(** A batch of three on a fresh session with three entries to give. *)
Lemma next_files_finish_reverses_retrieval_order_witness :
  let w := session_of [Info (FileInfo 1); Info (FileInfo 2); Info (FileInfo 3)]
             CloseOk in
  closed (priv w) = false /\ pending (priv w) = false /\ (0 < 3)%Z /\
  exists job,
    thread_jobs (g_file_enumerator_next_files_async w 3 0 None (Some 1) 0)
      = thread_jobs w ++ [job] /\
    forall wj, exists wj' res' log,
      run_thread_func wj job = Some (wj', res') /\
      vcalls wj' = vcalls wj ++ log /\
      option_map fst (g_file_enumerator_next_files_finish res')
        = Some (rev (infos_of log)).
Proof.
  intros w.
  assert (Hc : closed (priv w) = false) by reflexivity.
  assert (Hp : pending (priv w) = false) by reflexivity.
  assert (Hn : (0 < 3)%Z) by lia.
  repeat apply conj; try assumption.
  exact (next_files_finish_reverses_retrieval_order w 3 0 None (Some 1) 0 Hc Hp Hn).
Defined.

(** A batch of five, two entries, and the token found cancelled at the third
    poll. *)
Lemma next_files_thread_discards_cancellation_witness :
  let w := session_of [Info (FileInfo 1); Info (FileInfo 2); Info (FileInfo 3)]
             CloseOk in
  let c := Some (cancelled_from 2) in
  exists w2 res',
    next_files_thread w (next_async_result 5 (Some next_async_callback_wrapper_fn) 0) c
      = Some (w2, res') /\
    vcalls w2 = [VNextFile (Info (FileInfo 1)); VNextFile (Info (FileInfo 2))] /\
    error res' = None /\
    g_file_enumerator_next_files_finish res'
      = Some ([FileInfo 2; FileInfo 1], None) /\
    outstanding_error (priv w2) = None.
Proof.
  intros w c.
  destruct (class_next_file w c) as [r1 wa] eqn:E1.
  destruct (class_next_file wa c) as [r2 wb] eqn:E2.
  vm_compute in E1. inversion E1; subst r1; clear E1.
  assert (Hr : retrieves c 0 w [FileInfo 1; FileInfo 2] wb).
  { eapply retrieves_cons with (w1 := wa);
      [subst wa; vm_compute; reflexivity|].
    eapply retrieves_cons with (w1 := wb);
      [subst wa; vm_compute in E2; inversion E2; subst; vm_compute; reflexivity|].
    apply retrieves_nil. }
  assert (Hne : [FileInfo 1; FileInfo 2] <> []) by discriminate.
  assert (Hlen : (Z.of_nat (length [FileInfo 1; FileInfo 2]) < 5)%Z)
    by (simpl; lia).
  assert (Hf : fetch_info wb c (length [FileInfo 1; FileInfo 2])
               = (NextError (g_set_error G_IO_ERROR G_IO_ERROR_CANCELLED
                               "Operation was cancelled"), wb))
    by reflexivity.
  destruct (next_files_thread_discards_cancellation
              w 5 c (Some next_async_callback_wrapper_fn) 0
              [FileInfo 1; FileInfo 2] wb _ wb Hr Hne Hlen Hf eq_refl)
    as (res' & Ht & He & Hfin & Hpriv & _).
  exists wb, res'.
  repeat apply conj; try assumption.
  - subst wa. vm_compute in E2. inversion E2; subst. reflexivity.
  - rewrite Hpriv. reflexivity.
Defined.

(** A fresh session marked pending. *)
Lemma pending_session_rejects_witness :
  let w := g_file_enumerator_set_pending (session_of [Info (FileInfo 1)] CloseOk)
             true in
  pending (priv w) = true /\
  snd (g_file_enumerator_next_file w None) = w /\
  snd (g_file_enumerator_close w None) = w /\
  io_error G_IO_ERROR_PENDING (snd (fst (g_file_enumerator_next_file w None))) /\
  io_error G_IO_ERROR_PENDING (snd (fst (g_file_enumerator_close w None))) /\
  exists res e,
    idle_queue (g_file_enumerator_next_files_async w 2 0 None (Some 1) 0)
      = idle_queue w ++ [res] /\
    g_file_enumerator_next_files_finish res = Some ([], Some e) /\
    io_error G_IO_ERROR_PENDING (Some e).
Proof.
  intros w.
  assert (Hp : pending (priv w) = true) by reflexivity.
  destruct (pending_session_rejects w None 2 0 (Some 1) 0 Hp)
    as (H1 & H2 & _ & _ & Hopen).
  destruct (Hopen eq_refl) as ((_ & H3) & (_ & H4) & H5 & _).
  repeat apply conj; try assumption.
  apply H5. lia.
Defined.

(** A session closed by a close that the subclass failed. *)
Lemma closed_is_terminal_witness :
  let w0 := session_of [Info (FileInfo 1)] (CloseError io_failure) in
  let w := snd (g_file_enumerator_close w0 None) in
  closed (priv w) = true /\
  io_error G_IO_ERROR_CLOSED (snd (fst (g_file_enumerator_next_file w None))) /\
  g_file_enumerator_close w None = ((true, None), w) /\
  (forall os w', steps w os = Some w' -> closed (priv w') = true) /\
  exists res e,
    idle_queue (g_file_enumerator_close_async w 0 None (Some 1) 0)
      = idle_queue w ++ [res] /\
    g_file_enumerator_close_finish res = Some (false, Some e) /\
    io_error G_IO_ERROR_CLOSED (Some e).
Proof.
  intros w0 w.
  assert (Hc : closed (priv w) = true) by reflexivity.
  destruct (closed_is_terminal w w0 None
              (close_async_result (Some close_async_callback_wrapper_fn) 0) 0
              None 1 0 (Some 1) 0 Hc)
    as (_ & _ & Hsteps & (_ & Hnext) & Hclose & _ & Hasync).
  repeat apply conj; assumption.
Defined.

End ScriptedRuns.

(* ================================================================= *)
(** ** Further properties of the operations *)

Section Operations.

Context {B : Type} `{GFileEnumeratorClass B}.

Implicit Types (w : World B) (c : option GCancellable).

(* ----------------------------------------------------------------- *)
(** *** The synchronous read *)

(** X1.  On an open session with nothing pending and an empty slot the
    synchronous read is one virtual call with the caller's token: it hands
    back what the subclass handed back, entry, end of enumerator or error; the
    private struct is as before, [pending] cleared again; the stack of current
    cancellables is as before; nothing is scheduled and no callback runs. *)
Theorem g_file_enumerator_next_file_passes_through : forall w c,
  closed (priv w) = false -> pending (priv w) = false ->
  outstanding_error (priv w) = None ->
  fst (g_file_enumerator_next_file w c)
    = next_file_return (fst (next_file (instance w) c)) /\
  instance (snd (g_file_enumerator_next_file w c))
    = snd (next_file (instance w) c) /\
  vcalls (snd (g_file_enumerator_next_file w c))
    = vcalls w ++ [VNextFile (fst (next_file (instance w) c))] /\
  priv (snd (g_file_enumerator_next_file w c)) = priv w /\
  current_cancellable (snd (g_file_enumerator_next_file w c))
    = current_cancellable w /\
  thread_jobs (snd (g_file_enumerator_next_file w c)) = thread_jobs w /\
  idle_queue (snd (g_file_enumerator_next_file w c)) = idle_queue w /\
  invoked (snd (g_file_enumerator_next_file w c)) = invoked w.
Proof.
  intros [[cl pe ocb oerr] b l cc tj iq inv] c Hc Hp He.
  simpl in Hc, Hp, He. subst.
  unfold g_file_enumerator_next_file, class_next_file. simpl.
  destruct c as [t|]; simpl; destruct (next_file b _) as [r b'];
    simpl; repeat apply conj; reflexivity.
Qed.

(** X2.  An outstanding error is handed out once.  On an open session with
    nothing pending, the synchronous read returns the error of the slot
    without calling the subclass and empties the slot; the read after it is a
    virtual call on the subclass as the first read found it. *)
Theorem g_file_enumerator_next_file_outstanding_once : forall w c c' e,
  closed (priv w) = false -> pending (priv w) = false ->
  outstanding_error (priv w) = Some e ->
  fst (g_file_enumerator_next_file w c) = (None, Some e) /\
  vcalls (snd (g_file_enumerator_next_file w c)) = vcalls w /\
  instance (snd (g_file_enumerator_next_file w c)) = instance w /\
  outstanding_error (priv (snd (g_file_enumerator_next_file w c))) = None /\
  fst (g_file_enumerator_next_file (snd (g_file_enumerator_next_file w c)) c')
    = next_file_return (fst (next_file (instance w) c')) /\
  vcalls (snd (g_file_enumerator_next_file
                 (snd (g_file_enumerator_next_file w c)) c'))
    = vcalls w ++ [VNextFile (fst (next_file (instance w) c'))].
Proof.
  intros [[cl pe ocb oerr] b l cc tj iq inv] c c' e Hc Hp He.
  simpl in Hc, Hp, He. subst.
  unfold g_file_enumerator_next_file, class_next_file. simpl.
  destruct c' as [t|]; simpl; destruct (next_file b _) as [r b'];
    simpl; repeat apply conj; reflexivity.
Qed.

(** X3.  Whatever the state of the session and whatever the subclass answers,
    the two synchronous operations leave the stack of current cancellables as
    they found it (each push has its pop), leave [pending] as they found it,
    schedule nothing and invoke no callback. *)
Theorem synchronous_operations_are_balanced : forall w c,
  (current_cancellable (snd (g_file_enumerator_next_file w c))
     = current_cancellable w /\
   pending (priv (snd (g_file_enumerator_next_file w c))) = pending (priv w) /\
   thread_jobs (snd (g_file_enumerator_next_file w c)) = thread_jobs w /\
   idle_queue (snd (g_file_enumerator_next_file w c)) = idle_queue w /\
   invoked (snd (g_file_enumerator_next_file w c)) = invoked w) /\
  (current_cancellable (snd (g_file_enumerator_close w c))
     = current_cancellable w /\
   pending (priv (snd (g_file_enumerator_close w c))) = pending (priv w) /\
   thread_jobs (snd (g_file_enumerator_close w c)) = thread_jobs w /\
   idle_queue (snd (g_file_enumerator_close w c)) = idle_queue w /\
   invoked (snd (g_file_enumerator_close w c)) = invoked w).
Proof.
  intros [[cl pe ocb oerr] b l cc tj iq inv] c. split.
  - unfold g_file_enumerator_next_file, class_next_file. simpl.
    destruct cl; [repeat apply conj; reflexivity|].
    destruct pe; [repeat apply conj; reflexivity|].
    destruct oerr; [repeat apply conj; reflexivity|].
    destruct c as [t|]; simpl; destruct (next_file b _);
      simpl; repeat apply conj; reflexivity.
  - unfold g_file_enumerator_close, class_close. simpl.
    destruct cl; [repeat apply conj; reflexivity|].
    destruct pe; [repeat apply conj; reflexivity|].
    destruct c as [t|]; simpl; destruct (close b _);
      simpl; repeat apply conj; reflexivity.
Qed.

(** X4.  Finalizing makes the virtual close call exactly when the session is
    open with nothing pending, and then with no token.  A session that is
    closed already is left alone; so is an open session with [pending] set,
    whose close is refused: it stays open.  After finalizing, the session is
    closed if and only if it was closed or had nothing pending. *)
Theorem g_file_enumerator_finalize_closes_unless_pending : forall w,
  vcalls (g_file_enumerator_finalize w)
    = (if closed (priv w) || pending (priv w)
       then vcalls w
       else vcalls w ++ [VClose (fst (close (instance w) None))]) /\
  closed (priv (g_file_enumerator_finalize w))
    = closed (priv w) || negb (pending (priv w)) /\
  pending (priv (g_file_enumerator_finalize w)) = pending (priv w) /\
  outstanding_error (priv (g_file_enumerator_finalize w))
    = outstanding_error (priv w).
Proof.
  intros [[cl pe ocb oerr] b l cc tj iq inv].
  unfold g_file_enumerator_finalize, g_file_enumerator_close, class_close.
  simpl. destruct cl; [repeat apply conj; reflexivity|].
  destruct pe; [repeat apply conj; reflexivity|].
  simpl. destruct (close b None); simpl; repeat apply conj; reflexivity.
Qed.

(* ----------------------------------------------------------------- *)
(** *** The default batch worker, case by case *)

Lemma fetch_info_log : forall w c i r w1,
  fetch_info w c i = (r, w1) ->
  (vcalls w1 = vcalls w /\ exists e, r = NextError e)
  \/ vcalls w1 = vcalls w ++ [VNextFile r].
Proof.
  intros w c i r w1. unfold fetch_info.
  destruct (g_cancellable_set_error_if_cancelled c i) as [e|].
  - intros Heq. inversion Heq; subst. left. split; [reflexivity|].
    exists e. reflexivity.
  - intros Heq. apply class_next_file_frame in Heq. right. tauto.
Qed.

(** The loop calls nothing but the virtual [next_file], at most once per
    iteration, and every call but possibly the last yields an entry. *)
Lemma next_files_loop_bounds : forall todo i c w op w' op' e,
  next_files_loop todo i c w op = (w', op', e) ->
  exists log,
    vcalls w' = vcalls w ++ log /\
    files op' = rev (infos_of log) ++ files op /\
    length log <= todo /\
    length log <= length (infos_of log) + 1 /\
    forallb is_next_file_call log = true.
Proof.
  induction todo as [|todo IH]; intros i c w op w' op' e; simpl.
  - intros Heq. inversion Heq; subst. exists []. rewrite app_nil_r.
    simpl. repeat apply conj; try reflexivity; lia.
  - destruct (fetch_info w c i) as [r w1] eqn:Ef.
    pose proof (fetch_info_log _ _ _ _ _ Ef) as Hlog.
    pose proof (fetch_info_frame _ _ _ _ _ Ef) as (Hp & _).
    destruct r as [f| |err].
    + destruct Hlog as [(_ & err & Habs)|Hlog]; [discriminate|].
      intros Heq. apply IH in Heq.
      destruct Heq as (log2 & Hl2 & Hf2 & Hb1 & Hb2 & Hall).
      exists (VNextFile (Info f) :: log2). simpl.
      repeat apply conj; try lia; try assumption.
      * rewrite Hl2, Hlog, <- app_assoc. reflexivity.
      * rewrite Hf2. simpl. rewrite <- app_assoc. reflexivity.
    + intros Heq. inversion Heq; subst.
      destruct Hlog as [(_ & err & Habs)|Hlog]; [discriminate|].
      exists [VNextFile EndOfEnumerator]. simpl.
      repeat apply conj; try reflexivity; try lia; assumption.
    + intros Heq.
      assert (Hw : vcalls w' = vcalls w1 /\ op' = op).
      { destruct (0 <? i); [destruct (is_cancelled_error err)|];
          inversion Heq; subst; split; reflexivity. }
      destruct Hw as (Hw & Hop). subst op'.
      destruct Hlog as [(Hlog & _)|Hlog].
      * exists []. rewrite app_nil_r. simpl.
        repeat apply conj; try reflexivity; try lia. congruence.
      * exists [VNextFile (NextError err)]. simpl.
        repeat apply conj; try reflexivity; try lia. congruence.
Qed.

(** X5.  Whatever the subclass and the token do, the worker of a batch of [n]
    files returns; it calls nothing of the subclass but [next_file], at most
    [n] times and at most once more than the number of entries it collected;
    and the finish call on its result returns, with no error, a list of at
    most [n] entries (none when [n] is not positive). *)
Theorem next_files_thread_bounded : forall wj n cb ud c,
  exists wj' res' log fs,
    next_files_thread wj (next_async_result n cb ud) c = Some (wj', res') /\
    vcalls wj' = vcalls wj ++ log /\
    forallb is_next_file_call log = true /\
    g_file_enumerator_next_files_finish res' = Some (fs, None) /\
    length log <= Z.to_nat n /\
    length log <= length fs + 1 /\
    length fs <= Z.to_nat n.
Proof.
  intros wj n cb ud c.
  destruct (next_files_thread_runs wj (next_async_result n cb ud) _ c eq_refl)
    as (wj' & op' & e & Hl & Ht).
  apply next_files_loop_bounds in Hl.
  destruct Hl as (log & Hlog & Hf & Hb1 & Hb2 & Hall).
  simpl in Hf. rewrite app_nil_r in Hf.
  assert (Hlen : length (infos_of log) <= length log).
  { clear. induction log as [|[[f| |e]|r] log IH]; simpl; lia. }
  exists wj', (g_simple_async_result_set_op_res_gpointer
                 (next_async_result n cb ud) op'), log, (rev (infos_of log)).
  rewrite length_rev. simpl in Hb1.
  split; [exact Ht|]. split; [exact Hlog|]. split; [exact Hall|].
  split.
  { unfold g_file_enumerator_next_files_finish,
      g_file_enumerator_real_next_files_finish. simpl. rewrite Hf.
    reflexivity. }
  repeat apply conj; lia.
Qed.

(** What the worker does once the entries [fs] have been obtained and [todo]
    iterations are left. *)
Lemma next_files_thread_after : forall w n c cb ud fs w1 todo,
  retrieves c 0 w fs w1 ->
  Z.to_nat n = length fs + todo ->
  forall w' op' e,
    next_files_loop todo (length fs) c w1 {| num_files := n; files := rev fs |}
      = (w', op', e) ->
    next_files_thread w (next_async_result n cb ud) c
      = Some (w', g_simple_async_result_set_op_res_gpointer
                    (next_async_result n cb ud) op').
Proof.
  intros w n c cb ud fs w1 todo Hr Hn w' op' e Hl.
  unfold next_files_thread. simpl. rewrite Hn.
  rewrite (next_files_loop_retrieves _ _ _ _ _ Hr). simpl.
  rewrite Nat.add_0_r, app_nil_r, Hl. reflexivity.
Qed.

(** X6.  A full batch.  When the subclass hands out an entry at each of the
    [n] iterations and the token is not found cancelled, the worker stops after
    those [n] calls; the finish call returns all [n] entries, last one first,
    with no error; and the private struct is untouched, so no error is left
    for a later call. *)
Theorem next_files_thread_full_batch : forall w n c cb ud fs w1,
  retrieves c 0 w fs w1 ->
  Z.of_nat (length fs) = n ->
  exists res',
    next_files_thread w (next_async_result n cb ud) c = Some (w1, res') /\
    error res' = None /\
    g_file_enumerator_next_files_finish res' = Some (rev fs, None) /\
    priv w1 = priv w.
Proof.
  intros w n c cb ud fs w1 Hr Hn.
  eexists. split.
  - eapply (next_files_thread_after w n c cb ud fs w1 0 Hr); [lia|].
    simpl. reflexivity.
  - repeat apply conj; try reflexivity.
    eapply retrieves_priv; eassumption.
Qed.

(** X7.  The end of the enumerator inside a batch.  When, after the entries
    [fs] (possibly none), the subclass hands back NULL without an error, the
    worker stops there; the finish call returns the entries obtained, last one
    first, with no error (the empty list when there were none); and the
    private struct is untouched. *)
Theorem next_files_thread_end_of_enumerator : forall w n c cb ud fs w1 w2,
  retrieves c 0 w fs w1 ->
  (Z.of_nat (length fs) < n)%Z ->
  fetch_info w1 c (length fs) = (EndOfEnumerator, w2) ->
  exists res',
    next_files_thread w (next_async_result n cb ud) c = Some (w2, res') /\
    error res' = None /\
    g_file_enumerator_next_files_finish res' = Some (rev fs, None) /\
    priv w2 = priv w.
Proof.
  intros w n c cb ud fs w1 w2 Hr Hlen Hf.
  eexists. split.
  - eapply (next_files_thread_after w n c cb ud fs w1
             (S (Z.to_nat n - S (length fs))) Hr); [lia|].
    simpl. rewrite Hf. reflexivity.
  - repeat apply conj; try reflexivity.
    apply fetch_info_frame in Hf. destruct Hf as (Hp & _).
    rewrite Hp. eapply retrieves_priv; eassumption.
Qed.

(** X8.  An error after the first file.  When, after at least one entry, an
    iteration fails with an error that is not a cancellation, the worker
    stops; the finish call returns the entries obtained, last one first, with
    no error; the error sits in the slot of the session, whatever the slot
    held before; and once the completion wrapper has run on a session that is
    not closed, the next synchronous read returns that very error, without
    calling the subclass, and empties the slot. *)
Theorem next_files_thread_defers_error : forall w n c cb ud fs w1 e w2 c',
  retrieves c 0 w fs w1 ->
  fs <> [] ->
  (Z.of_nat (length fs) < n)%Z ->
  fetch_info w1 c (length fs) = (NextError e, w2) ->
  is_cancelled_error e = false ->
  exists w3 res',
    next_files_thread w (next_async_result n cb ud) c = Some (w3, res') /\
    error res' = None /\
    g_file_enumerator_next_files_finish res' = Some (rev fs, None) /\
    priv w3 = priv_set_outstanding_error (priv w) (Some e) /\
    vcalls w3 = vcalls w2 /\
    (closed (priv w) = false ->
     let w4 := next_async_callback_wrapper w3 res' ud in
     fst (g_file_enumerator_next_file w4 c') = (None, Some e) /\
     vcalls (snd (g_file_enumerator_next_file w4 c')) = vcalls w2 /\
     outstanding_error (priv (snd (g_file_enumerator_next_file w4 c'))) = None).
Proof.
  intros w n c cb ud fs w1 e w2 c' Hr Hne Hlen Hf Hcan.
  assert (Hp2 : priv w2 = priv w).
  { pose proof (fetch_info_frame _ _ _ _ _ Hf) as (Hp & _). rewrite Hp.
    eapply retrieves_priv; eassumption. }
  assert (Hpos : (0 <? length fs) = true)
    by (destruct fs; [contradiction|reflexivity]).
  exists (with_priv w2 (priv_set_outstanding_error (priv w2) (Some e))).
  eexists. split.
  - eapply (next_files_thread_after w n c cb ud fs w1
             (S (Z.to_nat n - S (length fs))) Hr); [lia|].
    simpl. rewrite Hf, Hpos, Hcan. reflexivity.
  - split; [reflexivity|]. split; [reflexivity|].
    split; [simpl; rewrite Hp2; reflexivity|]. split; [reflexivity|].
    intros Hc w4.
    assert (HW : priv w4 = priv_set_pending
                   (priv_set_outstanding_error (priv w) (Some e)) false
                 /\ vcalls w4 = vcalls w2).
    { unfold w4, next_async_callback_wrapper.
      rewrite invoke_callback_priv. simpl. rewrite Hp2.
      split; [reflexivity|].
      destruct (outstanding_callback (priv w)); reflexivity. }
    destruct HW as (HWp & HWv).
    unfold g_file_enumerator_next_file. rewrite HWp. simpl. rewrite Hc.
    simpl. repeat apply conj; try reflexivity. exact HWv.
Qed.

(** X15.  A result finished by the wrong finish call.  The result of a batch
    never carries an error, so the close finish call runs into the assertion
    on the tag and aborts.  The result of an asynchronous close aborts the
    batch finish call in the same way when the subclass closed without error;
    when the subclass failed, the error is propagated first and the batch
    finish call returns it, with no list, before it gets to the assertion. *)
Theorem finish_on_foreign_result : forall w n cb ud c,
  (exists w' res',
     next_files_thread w (next_async_result n cb ud) c = Some (w', res') /\
     g_file_enumerator_close_finish res' = None) /\
  g_file_enumerator_next_files_finish
    (snd (close_async_thread w (close_async_result cb ud) c))
  = match fst (close (instance w) c) with
    | CloseOk => None
    | CloseError e => Some ([], Some e)
    end.
Proof.
  intros w n cb ud c. split.
  - destruct (next_files_thread_runs w (next_async_result n cb ud) _ c eq_refl)
      as (w' & op' & e & _ & Ht).
    do 2 eexists. split; [exact Ht|]. reflexivity.
  - unfold close_async_thread, class_close.
    destruct (close (instance w) c) as [[|e] b]; reflexivity.
Qed.

(* ----------------------------------------------------------------- *)
(** *** Asynchronous operations: what a call schedules *)

(** X10.  An asynchronous request never calls the subclass and never invokes
    a callback before it returns.  The asynchronous close schedules exactly
    one thing, a job or a completion, whatever the state of the session; so
    does the asynchronous read for every count that is not negative.  A
    negative count fails the precondition check of the function: the world is
    left as it is and no completion is ever scheduled for that request. *)
Theorem asynchronous_requests_schedule_once : forall w n p c cb ud,
  (let w' := g_file_enumerator_next_files_async w n p c cb ud in
   length (thread_jobs w') + length (idle_queue w')
     = length (thread_jobs w) + length (idle_queue w)
       + (if (n <? 0)%Z then 0 else 1) /\
   vcalls w' = vcalls w /\ instance w' = instance w /\
   invoked w' = invoked w /\
   ((n < 0)%Z -> w' = w)) /\
  (let w' := g_file_enumerator_close_async w p c cb ud in
   length (thread_jobs w') + length (idle_queue w')
     = length (thread_jobs w) + length (idle_queue w) + 1 /\
   vcalls w' = vcalls w /\ instance w' = instance w /\
   invoked w' = invoked w).
Proof.
  intros w n p c cb ud. split.
  - unfold g_file_enumerator_next_files_async.
    destruct (Z.ltb_spec n 0) as [Hn|Hn].
    { simpl. repeat apply conj; try reflexivity; try lia. }
    assert (Hneg : (n < 0)%Z -> False) by lia.
    destruct (n =? 0)%Z; [|destruct (closed (priv w));
                            [|destruct (pending (priv w))]];
      simpl; rewrite ?length_app; simpl;
      repeat apply conj; try reflexivity; try lia;
      intros Habs; destruct (Hneg Habs).
  - unfold g_file_enumerator_close_async.
    destruct (closed (priv w)); [|destruct (pending (priv w))];
      simpl; rewrite ?length_app; simpl;
      repeat apply conj; try reflexivity; lia.
Qed.

(** X11.  An accepted asynchronous read holds the session.  On an open
    session with nothing pending, a request for a positive number of files
    sets [pending], stores the caller's callback and submits its job without
    calling the subclass.  From then on a synchronous read is refused with
    G_IO_ERROR_PENDING and changes nothing.  A further asynchronous read,
    whatever its count [m], submits no job, calls nothing and leaves the
    private struct as it is: a negative [m] leaves the whole world as it is; a
    zero [m] is answered by a completion whose finish call returns the empty
    list with no error; a positive [m] is answered by a completion whose
    finish call returns G_IO_ERROR_PENDING.  Delivering either completion
    leaves the private struct alone, so that it cannot release the session
    held by the first request. *)
Theorem accepted_read_holds_the_session :
  forall w n p c cb ud c' m p' cb' ud',
  closed (priv w) = false -> pending (priv w) = false ->
  (0 < n)%Z ->
  let w1 := g_file_enumerator_next_files_async w n p c cb ud in
  let w2 := g_file_enumerator_next_files_async w1 m p' c' cb' ud' in
  priv w1 = priv_set_outstanding_callback (priv_set_pending (priv w) true) cb /\
  vcalls w1 = vcalls w /\ invoked w1 = invoked w /\
  idle_queue w1 = idle_queue w /\
  g_file_enumerator_next_file w1 c'
    = ((None, Some (g_set_error G_IO_ERROR G_IO_ERROR_PENDING
                      "File enumerator has outstanding operation")), w1) /\
  thread_jobs w2 = thread_jobs w1 /\ priv w2 = priv w1 /\
  vcalls w2 = vcalls w1 /\ invoked w2 = invoked w1 /\
  ((m < 0)%Z -> w2 = w1) /\
  (m = 0%Z ->
   exists res,
     idle_queue w2 = idle_queue w1 ++ [res] /\
     g_file_enumerator_next_files_finish res = Some ([], None) /\
     forall w3, priv (g_simple_async_result_complete w3 res) = priv w3) /\
  ((0 < m)%Z ->
   exists res e,
     idle_queue w2 = idle_queue w1 ++ [res] /\
     g_file_enumerator_next_files_finish res = Some ([], Some e) /\
     io_error G_IO_ERROR_PENDING (Some e) /\
     forall w3, priv (g_simple_async_result_complete w3 res) = priv w3).
Proof.
  intros [[cl pe ocb oerr] b l cc tj iq inv] n p c cb ud c' m p' cb' ud'
    Hc Hp Hn.
  simpl in Hc, Hp. subst. unfold g_file_enumerator_next_files_async.
  destruct (Z.ltb_spec n 0); [lia|]. destruct (Z.eqb_spec n 0); [lia|].
  simpl.
  destruct (Z.ltb_spec m 0) as [Hm|Hm];
    [|destruct (Z.eqb_spec m 0) as [Hz|Hz]]; simpl;
    repeat apply conj; try reflexivity; try (intros; lia).
  - intros _. eexists. repeat apply conj; try reflexivity.
    intros w3. unfold g_simple_async_result_complete. simpl.
    destruct cb'; simpl; reflexivity.
  - intros _. do 2 eexists. repeat apply conj; try reflexivity.
    + apply io_error_intro.
    + intros w3. unfold g_simple_async_result_complete. simpl.
      destruct cb'; simpl; reflexivity.
Qed.

(* ----------------------------------------------------------------- *)
(** *** The asynchronous close *)

(** X9.  On an open session with nothing pending the asynchronous close sets
    [pending], stores the callback and submits one job with the automatic
    handling of cancellation switched off.  Whenever that job runs it makes
    the virtual close call, once, with the caller's token and without polling
    it first, so a cancelled token does not keep the close from running.  The
    close finish call on the result of the job reports what the subclass
    answered: TRUE with no error, or FALSE with the error of the subclass.
    And delivering the result leaves the session closed and not pending and
    invokes the stored callback, if any, once with that result. *)
Theorem g_file_enumerator_close_async_runs_close : forall w p c cb ud,
  closed (priv w) = false -> pending (priv w) = false ->
  let w1 := g_file_enumerator_close_async w p c cb ud in
  priv w1 = priv_set_outstanding_callback (priv_set_pending (priv w) true) cb /\
  vcalls w1 = vcalls w /\ invoked w1 = invoked w /\
  idle_queue w1 = idle_queue w /\
  exists job,
    thread_jobs w1 = thread_jobs w ++ [job] /\
    job_cancellable job = c /\
    handle_cancellation (job_res job) = false /\
    forall wj, exists wj' res',
      run_thread_func wj job = Some (wj', res') /\
      vcalls wj' = vcalls wj ++ [VClose (fst (close (instance wj) c))] /\
      priv wj' = priv wj /\
      g_file_enumerator_close_finish res'
        = Some (close_result (fst (close (instance wj) c)),
                close_error (fst (close (instance wj) c))) /\
      forall w2,
        closed (priv (g_simple_async_result_complete w2 res')) = true /\
        pending (priv (g_simple_async_result_complete w2 res')) = false /\
        invoked (g_simple_async_result_complete w2 res')
          = invoked w2 ++
            match outstanding_callback (priv w2) with
            | Some f => [{| cb_fn := f; cb_res := res'; cb_user_data := ud |}]
            | None => []
            end.
Proof.
  intros [[cl pe ocb oerr] b l cc tj iq inv] p c cb ud Hc Hp.
  simpl in Hc, Hp. subst. unfold g_file_enumerator_close_async. simpl.
  repeat apply conj; try reflexivity.
  eexists. repeat apply conj; try reflexivity.
  intros wj. unfold run_thread_func, close_async_thread, class_close. simpl.
  destruct (close (instance wj) c) as [[|e] b'];
    do 2 eexists; (split; [reflexivity|]); simpl;
    repeat apply conj; try reflexivity;
    intros w2; unfold g_simple_async_result_complete,
      close_async_callback_wrapper; simpl;
    destruct (outstanding_callback (priv w2)); simpl;
    try rewrite app_nil_r; repeat apply conj; reflexivity.
Qed.

(* ----------------------------------------------------------------- *)
(** *** A batch from request to callback *)

(** X16.  On an open session with nothing pending and nothing else queued, an
    asynchronous read of a positive number of files, a run of the scheduler
    and a turn of the main loop go through: the caller's callback, if any, is
    invoked exactly once, with the caller's user data and with the result the
    worker filled; [pending] is cleared again and the session is still open;
    both queues are empty; and the finish call on the delivered result returns
    the entries the subclass handed out in between, last one first. *)
Theorem next_files_async_round_trip : forall w n p c cb ud,
  closed (priv w) = false -> pending (priv w) = false -> (0 < n)%Z ->
  thread_jobs w = [] -> idle_queue w = [] ->
  exists w' res log,
    steps w [OpNextFilesAsync n p c cb ud; OpRunThreadJob; OpRunIdle] = Some w' /\
    invoked w' = invoked w ++
      match cb with
      | Some f => [{| cb_fn := f; cb_res := res; cb_user_data := ud |}]
      | None => []
      end /\
    pending (priv w') = false /\ closed (priv w') = false /\
    thread_jobs w' = [] /\ idle_queue w' = [] /\
    vcalls w' = vcalls w ++ log /\
    g_file_enumerator_next_files_finish res = Some (rev (infos_of log), None).
Proof.
  intros [[cl pe ocb oerr] b l cc tj iq inv] n p c cb ud Hc Hp Hn Hj Hq.
  simpl in Hc, Hp, Hj, Hq. subst.
  unfold steps, step, g_file_enumerator_next_files_async.
  destruct (Z.ltb_spec n 0); [lia|]. destruct (Z.eqb_spec n 0); [lia|].
  simpl. unfold run_thread_job. simpl.
  unfold run_thread_func, next_files_thread. simpl.
  match goal with
  | |- context [next_files_loop ?k ?i ?t ?x ?o] =>
      destruct (next_files_loop k i t x o) as [[w2 op2] e] eqn:El
  end.
  apply next_files_loop_spec in El. simpl in El.
  destruct El as ((log & Hlog & Hf) & Hnum & Hcl & Hpe & Hcb & Hcc & Htj & Hiq & Hinv).
  unfold run_idle, g_simple_async_result_complete_in_idle. simpl.
  rewrite Hiq. simpl.
  unfold g_simple_async_result_complete, next_async_callback_wrapper. simpl.
  rewrite Hcb.
  eexists. exists (g_simple_async_result_set_op_res_gpointer
                     (next_async_result n (Some next_async_callback_wrapper_fn) ud)
                     op2), log.
  split; [reflexivity|].
  rewrite app_nil_r in Hf.
  destruct cb as [f|]; simpl; rewrite ?app_nil_r;
    repeat apply conj; try assumption; try reflexivity;
    try (rewrite Hinv; reflexivity);
    unfold g_file_enumerator_next_files_finish,
      g_file_enumerator_real_next_files_finish; simpl; rewrite Hf; reflexivity.
Qed.

(* ----------------------------------------------------------------- *)
(** *** Invariants of a session *)

Lemma run_thread_func_frame : forall w j w' res,
  run_thread_func w j = Some (w', res) ->
  closed (priv w') = closed (priv w) /\
  pending (priv w') = pending (priv w) /\
  thread_jobs w' = thread_jobs w /\
  idle_queue w' = idle_queue w /\
  callback res = callback (job_res j).
Proof.
  intros w j w' res. unfold run_thread_func. destruct (job_func j).
  - unfold next_files_thread.
    destruct (op_res (job_res j)) as [op|]; [|discriminate].
    destruct (next_files_loop _ _ _ _ _) as [[w1 op1] e] eqn:El.
    intros Heq. inversion Heq; subst.
    apply next_files_loop_spec in El.
    destruct El as (_ & _ & Hcl & Hpe & _ & _ & Htj & Hiq & _).
    repeat apply conj; try assumption. reflexivity.
  - unfold close_async_thread.
    destruct (class_close w (job_cancellable j)) as [r w1] eqn:Ec.
    apply class_close_frame in Ec.
    destruct Ec as (_ & _ & Hp & _ & _ & Htj & Hiq & _).
    destruct r; intros Heq; inversion Heq; subst; rewrite Hp;
      repeat apply conj; try assumption; reflexivity.
Qed.

Lemma synchronous_queues : forall w c,
  thread_jobs (snd (g_file_enumerator_next_file w c)) = thread_jobs w /\
  thread_jobs (snd (g_file_enumerator_close w c)) = thread_jobs w.
Proof.
  intros [[cl pe ocb oerr] b l cc tj iq inv] c. split.
  - unfold g_file_enumerator_next_file, class_next_file. simpl.
    destruct cl; [reflexivity|]. destruct pe; [reflexivity|].
    destruct oerr; [reflexivity|].
    destruct c as [t|]; simpl; destruct (next_file b _); reflexivity.
  - unfold g_file_enumerator_close, class_close. simpl.
    destruct cl; [reflexivity|]. destruct pe; [reflexivity|].
    destruct c as [t|]; simpl; destruct (close b _); reflexivity.
Qed.

(** Every step keeps the jobs for next_files_thread equipped with their op. *)
Lemma step_jobs_have_op : forall w o w',
  step w o = Some w' ->
  Forall job_has_op (thread_jobs w) -> Forall job_has_op (thread_jobs w').
Proof.
  intros w o w' Hs Hinv. destruct o; simpl in Hs.
  - inversion Hs; subst.
    rewrite (proj1 (synchronous_queues w cancellable)). assumption.
  - inversion Hs; subst.
    rewrite (proj2 (synchronous_queues w cancellable)). assumption.
  - inversion Hs; subst. unfold g_file_enumerator_next_files_async.
    destruct (n <? 0)%Z; [assumption|]. destruct (n =? 0)%Z; [assumption|].
    destruct (closed (priv w)); [assumption|].
    destruct (pending (priv w)); [assumption|].
    simpl. apply Forall_app. split; [assumption|].
    constructor; [|constructor]. intros _. simpl. discriminate.
  - inversion Hs; subst. unfold g_file_enumerator_close_async.
    destruct (closed (priv w)); [assumption|].
    destruct (pending (priv w)); [assumption|].
    simpl. apply Forall_app. split; [assumption|].
    constructor; [|constructor]. intros Habs. simpl in Habs. discriminate.
  - inversion Hs; subst. assumption.
  - inversion Hs; subst. unfold g_file_enumerator_finalize.
    destruct (closed (priv w)); [assumption|].
    rewrite (proj2 (synchronous_queues w None)). assumption.
  - unfold run_thread_job in Hs.
    destruct (thread_jobs w) as [|j js] eqn:Ej;
      [inversion Hs; subst; rewrite Ej; assumption|].
    destruct (run_thread_func _ j) as [[w2 res]|] eqn:Er; [|discriminate].
    inversion Hs; subst. apply run_thread_func_frame in Er.
    destruct Er as (_ & _ & Htj & _). simpl in *. rewrite Htj.
    inversion Hinv; assumption.
  - inversion Hs; subst. unfold run_idle.
    destruct (idle_queue w) as [|res rest]; [assumption|].
    unfold g_simple_async_result_complete, next_async_callback_wrapper,
      close_async_callback_wrapper, invoke_callback.
    destruct (callback res) as [[f| |]|]; simpl;
      try destruct (outstanding_callback (priv w)); simpl; assumption.
Qed.

Lemma step_defined : forall w o,
  Forall job_has_op (thread_jobs w) -> exists w', step w o = Some w'.
Proof.
  intros w o Hinv. destruct o; simpl; try (eexists; reflexivity).
  unfold run_thread_job.
  destruct (thread_jobs w) as [|j js] eqn:Ej; [eexists; reflexivity|].
  inversion Hinv as [|j' js' Hj _]; subst.
  unfold run_thread_func. unfold job_has_op in Hj.
  destruct (job_func j).
  - unfold next_files_thread.
    destruct (op_res (job_res j)) as [op|]; [|destruct (Hj eq_refl eq_refl)].
    destruct (next_files_loop _ _ _ _ _) as [[w1 op1] e].
    eexists; reflexivity.
  - destruct (close_async_thread _ _ _) as [w1 res].
    eexists; reflexivity.
Qed.

(** X13.  No sequence of operations, scheduler runs and main loop turns on a
    fresh session aborts: every job the scheduler finds for next_files_thread
    was submitted by g_file_enumerator_real_next_files_async and carries the
    op that the thread dereferences. *)
Theorem steps_never_abort : forall (b : B) os,
  exists w', steps (g_file_enumerator_init b) os = Some w'.
Proof.
  intros b os.
  assert (Hgen : forall os w, Forall job_has_op (thread_jobs w) ->
                   exists w', steps w os = Some w').
  { clear os. induction os as [|o os IH]; intros w Hinv; simpl.
    - eexists; reflexivity.
    - destruct (step_defined w o Hinv) as (w1 & Hs). rewrite Hs.
      apply IH. eapply step_jobs_have_op; eassumption. }
  apply Hgen. simpl. constructor.
Qed.

(** X12.  However a session is driven from its creation on, the slot that
    the synchronous read hands out never holds a cancellation error: the
    worker is its only writer and frees cancellation errors instead. *)
Theorem outstanding_error_is_never_a_cancellation : forall (b : B) os w',
  steps (g_file_enumerator_init b) os = Some w' ->
  forall e, outstanding_error (priv w') = Some e -> is_cancelled_error e = false.
Proof.
  intros b os w' Hs.
  apply (steps_outstanding_not_cancelled os (g_file_enumerator_init b) w' Hs).
  intros e He. simpl in He. discriminate.
Qed.

Lemma length_filter_snoc : forall (A : Type) (f : A -> bool) l x,
  length (filter f (l ++ [x])) = length (filter f l) + (if f x then 1 else 0).
Proof.
  intros A f l x. rewrite filter_app, length_app. simpl.
  destruct (f x); reflexivity.
Qed.

(** Unless the public setter of [pending] is used, every step keeps the
    number of accepted operations in flight equal to the [pending] bit, and
    keeps [closed] and [pending] from being set together. *)
Lemma step_one_in_flight : forall w o w',
  is_set_pending o = false ->
  step w o = Some w' ->
  in_flight w = (if pending (priv w) then 1 else 0) /\
  (closed (priv w) = true -> pending (priv w) = false) ->
  in_flight w' = (if pending (priv w') then 1 else 0) /\
  (closed (priv w') = true -> pending (priv w') = false).
Proof.
  intros [[cl pe ocb oerr] b l cc tj iq inv] o w' Hop Hs.
  unfold in_flight. simpl. destruct o; simpl in Hs, Hop; try discriminate.
  - inversion Hs; subst; clear Hs.
    unfold g_file_enumerator_next_file, class_next_file. simpl.
    destruct cl; [trivial|]. destruct pe; [trivial|].
    destruct oerr; [trivial|].
    destruct cancellable as [t|]; simpl; destruct (next_file b _); trivial.
  - inversion Hs; subst; clear Hs.
    unfold g_file_enumerator_close, class_close. simpl.
    destruct cl; [trivial|]. destruct pe; [trivial|].
    destruct cancellable as [t|]; simpl; destruct (close b _); simpl;
      intros (Hn & _); split; auto.
  - inversion Hs; subst; clear Hs.
    unfold g_file_enumerator_next_files_async. simpl.
    destruct (n <? 0)%Z; [trivial|].
    destruct (n =? 0)%Z.
    { simpl. rewrite length_filter_snoc. unfold wrapped at 3. simpl.
      destruct cb; simpl; rewrite Nat.add_0_r; trivial. }
    destruct cl.
    { simpl. rewrite length_filter_snoc. unfold wrapped at 3. simpl.
      destruct cb; simpl; rewrite Nat.add_0_r; trivial. }
    destruct pe.
    { simpl. rewrite length_filter_snoc. unfold wrapped at 3. simpl.
      destruct cb; simpl; rewrite Nat.add_0_r; trivial. }
    simpl. rewrite length_filter_snoc. simpl.
    intros (Hn & _). split; [lia|discriminate].
  - inversion Hs; subst; clear Hs.
    unfold g_file_enumerator_close_async. simpl.
    destruct cl.
    { simpl. rewrite length_filter_snoc. unfold wrapped at 3. simpl.
      destruct cb; simpl; rewrite Nat.add_0_r; trivial. }
    destruct pe.
    { simpl. rewrite length_filter_snoc. unfold wrapped at 3. simpl.
      destruct cb; simpl; rewrite Nat.add_0_r; trivial. }
    simpl. rewrite length_filter_snoc. simpl.
    intros (Hn & _). split; [lia|discriminate].
  - inversion Hs; subst; clear Hs.
    unfold g_file_enumerator_finalize, g_file_enumerator_close, class_close.
    simpl. destruct cl; [trivial|]. destruct pe; [trivial|].
    simpl. destruct (close b None); simpl; intros (Hn & _); split; auto.
  - unfold run_thread_job in Hs. simpl in Hs.
    destruct tj as [|j js]; [inversion Hs; subst; trivial|].
    destruct (run_thread_func _ j) as [[w2 res]|] eqn:Er; [|discriminate].
    inversion Hs; subst; clear Hs.
    apply run_thread_func_frame in Er. simpl in Er.
    destruct Er as (Hcl & Hpe & Htj & Hiq & Hcb).
    simpl. rewrite Hcl, Hpe, Htj, Hiq, length_filter_snoc.
    assert (Hw : wrapped res = wrapped (job_res j))
      by (unfold wrapped; rewrite Hcb; reflexivity).
    rewrite Hw. simpl.
    destruct (wrapped (job_res j)); simpl; intros (Hn & Hc); split;
      try assumption; lia.
  - inversion Hs; subst; clear Hs. unfold run_idle. simpl.
    destruct iq as [|res rest]; [trivial|]. simpl.
    unfold g_simple_async_result_complete, next_async_callback_wrapper,
      close_async_callback_wrapper, invoke_callback, wrapped.
    destruct (callback res) as [[f| |]|]; simpl;
      try (destruct ocb; simpl); try trivial;
      intros (Hn & Hc); (split; [|auto]);
      destruct pe; simpl in *; try lia; try reflexivity.
Qed.

(** X14.  One operation at a time.  Driven from its creation on by anything
    but the public setter of [pending], a session has [pending] set exactly
    when one accepted asynchronous operation is waiting as a job or as a
    completion, never more than one, and it is never closed and pending at
    once. *)
Theorem one_operation_in_flight : forall (b : B) os w',
  forallb (fun o => negb (is_set_pending o)) os = true ->
  steps (g_file_enumerator_init b) os = Some w' ->
  in_flight w' = (if pending (priv w') then 1 else 0) /\
  (closed (priv w') = true -> pending (priv w') = false).
Proof.
  intros b os w' Hos Hs.
  assert (Hgen : forall os w w',
            forallb (fun o => negb (is_set_pending o)) os = true ->
            steps w os = Some w' ->
            in_flight w = (if pending (priv w) then 1 else 0) /\
            (closed (priv w) = true -> pending (priv w) = false) ->
            in_flight w' = (if pending (priv w') then 1 else 0) /\
            (closed (priv w') = true -> pending (priv w') = false)).
  { clear. induction os as [|o os IH]; intros w w' Hos Hs Hinv; simpl in *.
    - inversion Hs; subst. assumption.
    - apply andb_true_iff in Hos. destruct Hos as (Ho & Hos).
      destruct (step w o) as [w1|] eqn:E1; [|discriminate].
      apply (IH w1 w' Hos Hs).
      apply (step_one_in_flight w o w1); try assumption.
      destruct (is_set_pending o); [discriminate|reflexivity]. }
  apply (Hgen os (g_file_enumerator_init b) w' Hos Hs).
  split; [reflexivity|discriminate].
Qed.

End Operations.

(* ================================================================= *)
(** ** The further properties over the scripted subclass *)

Section ScriptedOperations.

(** A read on a fresh session with one entry to give. *)
Lemma g_file_enumerator_next_file_passes_through_witness :
  let w := session_of [Info (FileInfo 1)] CloseOk in
  closed (priv w) = false /\ pending (priv w) = false /\
  outstanding_error (priv w) = None /\
  fst (g_file_enumerator_next_file w None) = (Some (FileInfo 1), None) /\
  vcalls (snd (g_file_enumerator_next_file w None))
    = [VNextFile (Info (FileInfo 1))] /\
  priv (snd (g_file_enumerator_next_file w None)) = priv w.
Proof.
  intros w.
  assert (Hc : closed (priv w) = false) by reflexivity.
  assert (Hp : pending (priv w) = false) by reflexivity.
  assert (He : outstanding_error (priv w) = None) by reflexivity.
  destruct (g_file_enumerator_next_file_passes_through w None Hc Hp He)
    as (Hr & _ & Hv & Hpr & _).
  repeat apply conj; assumption.
Defined.

(** Two reads on a session whose slot holds an I/O error. *)
Lemma g_file_enumerator_next_file_outstanding_once_witness :
  let w := with_priv (session_of [Info (FileInfo 1)] CloseOk)
             {| closed := false; pending := false;
                outstanding_callback := None;
                outstanding_error := Some io_failure |} in
  closed (priv w) = false /\ pending (priv w) = false /\
  outstanding_error (priv w) = Some io_failure /\
  fst (g_file_enumerator_next_file w None) = (None, Some io_failure) /\
  fst (g_file_enumerator_next_file (snd (g_file_enumerator_next_file w None)) None)
    = (Some (FileInfo 1), None).
Proof.
  intros w.
  assert (Hc : closed (priv w) = false) by reflexivity.
  assert (Hp : pending (priv w) = false) by reflexivity.
  assert (He : outstanding_error (priv w) = Some io_failure) by reflexivity.
  destruct (g_file_enumerator_next_file_outstanding_once
              w None None io_failure Hc Hp He)
    as (H1 & _ & _ & _ & H2 & _).
  repeat apply conj; assumption.
Defined.

(** A batch of two on a session with exactly two entries. *)
Lemma next_files_thread_full_batch_witness :
  let w := session_of [Info (FileInfo 1); Info (FileInfo 2)] CloseOk in
  let w1 := snd (class_next_file (snd (class_next_file w None)) None) in
  retrieves None 0 w [FileInfo 1; FileInfo 2] w1 /\
  exists res',
    next_files_thread w (next_async_result 2 None 0) None = Some (w1, res') /\
    g_file_enumerator_next_files_finish res'
      = Some ([FileInfo 2; FileInfo 1], None).
Proof.
  intros w w1.
  assert (Hr : retrieves None 0 w [FileInfo 1; FileInfo 2] w1).
  { eapply retrieves_cons with (w1 := snd (class_next_file w None));
      [vm_compute; reflexivity|].
    eapply retrieves_cons; [vm_compute; reflexivity|]. apply retrieves_nil. }
  split; [exact Hr|].
  destruct (next_files_thread_full_batch w 2 None None 0
              [FileInfo 1; FileInfo 2] w1 Hr eq_refl)
    as (res' & Ht & _ & Hf & _).
  exists res'. split; assumption.
Defined.

(** A batch of three on a session with one entry. *)
Lemma next_files_thread_end_of_enumerator_witness :
  let w := session_of [Info (FileInfo 1)] CloseOk in
  let w1 := snd (class_next_file w None) in
  let w2 := snd (class_next_file w1 None) in
  retrieves None 0 w [FileInfo 1] w1 /\
  fetch_info w1 None 1 = (EndOfEnumerator, w2) /\
  exists res',
    next_files_thread w (next_async_result 3 None 0) None = Some (w2, res') /\
    g_file_enumerator_next_files_finish res' = Some ([FileInfo 1], None).
Proof.
  intros w w1 w2.
  assert (Hr : retrieves None 0 w [FileInfo 1] w1).
  { eapply retrieves_cons; [vm_compute; reflexivity|]. apply retrieves_nil. }
  assert (Hf : fetch_info w1 None (length [FileInfo 1]) = (EndOfEnumerator, w2))
    by (vm_compute; reflexivity).
  assert (Hlen : (Z.of_nat (length [FileInfo 1]) < 3)%Z) by (simpl; lia).
  split; [exact Hr|]. split; [exact Hf|].
  destruct (next_files_thread_end_of_enumerator w 3 None None 0
              [FileInfo 1] w1 w2 Hr Hlen Hf)
    as (res' & Ht & _ & Hfin & _).
  exists res'. split; assumption.
Defined.

(** A batch of three: one entry, then an I/O error. *)
Lemma next_files_thread_defers_error_witness :
  let w := session_of [Info (FileInfo 1); NextError io_failure] CloseOk in
  let w1 := snd (class_next_file w None) in
  let w2 := snd (class_next_file w1 None) in
  retrieves None 0 w [FileInfo 1] w1 /\
  fetch_info w1 None 1 = (NextError io_failure, w2) /\
  is_cancelled_error io_failure = false /\
  exists w3 res',
    next_files_thread w (next_async_result 3 None 0) None = Some (w3, res') /\
    g_file_enumerator_next_files_finish res' = Some ([FileInfo 1], None) /\
    outstanding_error (priv w3) = Some io_failure /\
    fst (g_file_enumerator_next_file (next_async_callback_wrapper w3 res' 0) None)
      = (None, Some io_failure).
Proof.
  intros w w1 w2.
  assert (Hr : retrieves None 0 w [FileInfo 1] w1).
  { eapply retrieves_cons; [vm_compute; reflexivity|]. apply retrieves_nil. }
  assert (Hf : fetch_info w1 None (length [FileInfo 1])
               = (NextError io_failure, w2))
    by (vm_compute; reflexivity).
  assert (Hne : [FileInfo 1] <> []) by discriminate.
  assert (Hlen : (Z.of_nat (length [FileInfo 1]) < 3)%Z) by (simpl; lia).
  assert (Hcan : is_cancelled_error io_failure = false) by reflexivity.
  repeat (split; [assumption|]).
  destruct (next_files_thread_defers_error w 3 None None 0
              [FileInfo 1] w1 io_failure w2 None Hr Hne Hlen Hf Hcan)
    as (w3 & res' & Ht & _ & Hfin & Hpr & _ & Hnext).
  destruct (Hnext eq_refl) as (Hread & _).
  exists w3, res'. repeat apply conj; try assumption.
  rewrite Hpr. reflexivity.
Defined.

(** An asynchronous close with a token that is cancelled from the start, on a
    session whose subclass fails to close. *)
Lemma g_file_enumerator_close_async_runs_close_witness :
  let w := session_of [] (CloseError io_failure) in
  let c := Some (cancelled_from 0) in
  let w1 := g_file_enumerator_close_async w 0 c (Some 1) 0 in
  closed (priv w) = false /\ pending (priv w) = false /\
  pending (priv w1) = true /\
  exists job wj' res',
    thread_jobs w1 = [job] /\
    run_thread_func w1 job = Some (wj', res') /\
    vcalls wj' = [VClose (CloseError io_failure)] /\
    g_file_enumerator_close_finish res' = Some (false, Some io_failure).
Proof.
  intros w c w1.
  assert (Hc : closed (priv w) = false) by reflexivity.
  assert (Hp : pending (priv w) = false) by reflexivity.
  destruct (g_file_enumerator_close_async_runs_close w 0 c (Some 1) 0 Hc Hp)
    as (Hpr & _ & _ & _ & job & Hj & _ & _ & Hrun).
  destruct (Hrun w1) as (wj' & res' & Hr & Hv & _ & Hfin & _).
  repeat (split; [assumption|]).
  split; [reflexivity|].
  exists job, wj', res'. repeat apply conj; assumption.
Defined.

(** A read of two accepted, then a read and a second request refused. *)
Lemma accepted_read_holds_the_session_witness :
  let w := session_of [Info (FileInfo 1)] CloseOk in
  let w1 := g_file_enumerator_next_files_async w 2 0 None (Some 1) 0 in
  let w2 := g_file_enumerator_next_files_async w1 1 0 None (Some 2) 0 in
  closed (priv w) = false /\ pending (priv w) = false /\
  (0 < 2)%Z /\
  pending (priv w1) = true /\
  snd (g_file_enumerator_next_file w1 None) = w1 /\
  thread_jobs w2 = thread_jobs w1 /\ priv w2 = priv w1 /\
  exists res e,
    idle_queue w2 = [res] /\
    g_file_enumerator_next_files_finish res = Some ([], Some e) /\
    io_error G_IO_ERROR_PENDING (Some e).
Proof.
  intros w w1 w2.
  assert (Hc : closed (priv w) = false) by reflexivity.
  assert (Hp : pending (priv w) = false) by reflexivity.
  assert (Hn : (0 < 2)%Z) by lia.
  destruct (accepted_read_holds_the_session w 2 0 None (Some 1) 0
              None 1 0 (Some 2) 0 Hc Hp Hn)
    as (Hpr & _ & _ & _ & Hread & Htj & Hpriv & _ & _ & _ & _ & Hpos).
  destruct Hpos as (res & e & Hq & Hfin & Herr & _); [lia|].
  repeat (split; [assumption|]).
  split; [reflexivity|].
  split; [fold w1 in Hread; rewrite Hread; reflexivity|].
  split; [exact Htj|]. split; [exact Hpriv|].
  exists res, e. repeat apply conj; assumption.
Defined.

(** A batch of two on a fresh session with three entries. *)
Lemma next_files_async_round_trip_witness :
  let w := session_of [Info (FileInfo 1); Info (FileInfo 2); Info (FileInfo 3)]
             CloseOk in
  closed (priv w) = false /\ pending (priv w) = false /\ (0 < 2)%Z /\
  thread_jobs w = [] /\ idle_queue w = [] /\
  exists w' res log,
    steps w [OpNextFilesAsync 2 0 None (Some 1) 0; OpRunThreadJob; OpRunIdle]
      = Some w' /\
    invoked w' = [{| cb_fn := 1; cb_res := res; cb_user_data := 0 |}] /\
    pending (priv w') = false /\
    vcalls w' = vcalls w ++ log /\
    g_file_enumerator_next_files_finish res = Some (rev (infos_of log), None).
Proof.
  intros w.
  assert (Hc : closed (priv w) = false) by reflexivity.
  assert (Hp : pending (priv w) = false) by reflexivity.
  assert (Hn : (0 < 2)%Z) by lia.
  assert (Hj : thread_jobs w = []) by reflexivity.
  assert (Hq : idle_queue w = []) by reflexivity.
  destruct (next_files_async_round_trip w 2 0 None (Some 1) 0 Hc Hp Hn Hj Hq)
    as (w' & res & log & Hs & Hinv & Hpe & _ & _ & _ & Hv & Hfin).
  repeat (split; [assumption|]).
  exists w', res, log. repeat apply conj; assumption.
Defined.

(** A batch whose second iteration finds the token cancelled, then a batch
    that leaves an I/O error in the slot. *)
Lemma outstanding_error_is_never_a_cancellation_witness :
  let b := {| script := [Info (FileInfo 1); Info (FileInfo 2);
                         NextError io_failure];
              on_close := CloseOk |} in
  let os := [OpNextFilesAsync 3 0 (Some (cancelled_from 1)) (Some 1) 0;
             OpRunThreadJob; OpRunIdle;
             OpNextFilesAsync 3 0 None (Some 2) 0; OpRunThreadJob; OpRunIdle] in
  exists w',
    steps (g_file_enumerator_init b) os = Some w' /\
    forall e, outstanding_error (priv w') = Some e ->
              is_cancelled_error e = false.
Proof.
  intros b os.
  destruct (steps (g_file_enumerator_init b) os) as [w'|] eqn:Hs.
  - exists w'. split; [reflexivity|].
    exact (outstanding_error_is_never_a_cancellation b os w' Hs).
  - vm_compute in Hs. discriminate.
Defined.

(** Two requests, the second refused, a refused close, and the deliveries. *)
Lemma one_operation_in_flight_witness :
  let b := {| script := [Info (FileInfo 1)]; on_close := CloseOk |} in
  let os := [OpNextFilesAsync 2 0 None (Some 1) 0;
             OpNextFilesAsync 1 0 None (Some 2) 0;
             OpClose None; OpRunThreadJob; OpRunIdle; OpRunIdle;
             OpCloseAsync 0 None (Some 3) 0; OpRunThreadJob] in
  forallb (fun o => negb (is_set_pending o)) os = true /\
  exists w',
    steps (g_file_enumerator_init b) os = Some w' /\
    in_flight w' = (if pending (priv w') then 1 else 0) /\
    (closed (priv w') = true -> pending (priv w') = false).
Proof.
  intros b os.
  assert (Hos : forallb (fun o => negb (is_set_pending o)) os = true)
    by reflexivity.
  split; [exact Hos|].
  destruct (steps (g_file_enumerator_init b) os) as [w'|] eqn:Hs.
  - exists w'. split; [reflexivity|].
    exact (one_operation_in_flight b os w' Hos Hs).
  - vm_compute in Hs. discriminate.
Defined.

End ScriptedOperations.
